(** * genedescriptions: trimming algorithms, set covering and sentence merging

    A shallow embedding of [genedescriptions/trimming.py] and of the term
    reduction and sentence merging parts of
    [genedescriptions/descriptions_generator.py].

    Conventions of the embedding:
    - a Python [set] of strings is a [gset string]; where the program
      iterates over a set or pops from it, the unspecified order is an
      explicit oracle ([pick]) and every theorem holds for all oracles;
    - an insertion-ordered [dict] whose order is observable is an
      association list;
    - an exception is the [Raise] result of the [py] type;
    - the IC score (a Python float) is a rational number;
    - a Python [str] is a [string]: its characters are bytes, compared by
      their codes;
    - an optional list or set ([value], [nodeids_blacklist], [slim_set],
      [high_priority_terms]) that the code only tests for truth is the list
      or set itself, [None] being the empty one;
    - the ontology (ontobio) is an external collaborator: a record of the
      queries the code makes, in which every node has its attributes and a
      label. *)

From Stdlib Require Import ZArith QArith Lqa Lia List Permutation Sorted OrdersEx Ascii String.
From stdpp Require Import gmap strings list.

Open Scope string_scope.
Open Scope list_scope.
Open Scope Z_scope.

(** ** Python results *)

Inductive exn : Type :=
| ValueError | IndexError | KeyError | TypeError | RecursionError.

Inductive py (A : Type) : Type :=
| Ok (a : A)
| Raise (e : exn).
Arguments Ok {A} a.
Arguments Raise {A} e.

Definition py_bind {A B} (m : py A) (k : A -> py B) : py B :=
  match m with
  | Ok a => k a
  | Raise e => Raise e
  end.

#[global] Instance py_mbind : MBind py := fun A B k m => py_bind m k.
#[global] Instance py_mret : MRet py := fun A a => Ok a.

(** Truth value of a Python [str] or [None]. *)
Definition truthy (s : option string) : bool :=
  match s with
  | Some s => negb (String.eqb s "")
  | None => false
  end.

(** [str < str]: comparison by code points. *)
Definition str_ltb (a b : string) : bool :=
  match String_as_OT.compare a b with Lt => true | _ => false end.

(** ** [sorted]: a stable sort *)

Section Sorted.
Context {A : Type} (ltb : A -> A -> bool).

Fixpoint insert_sorted (x : A) (l : list A) : list A :=
  match l with
  | [] => [x]
  | y :: l' => if ltb y x then y :: insert_sorted x l' else x :: l
  end.

(** [sorted(l, key=...)]: equal keys keep their order. *)
Definition sorted (l : list A) : list A := foldr insert_sorted [] l.

(** No element is smaller than an earlier one. *)
Definition ordered (l : list A) : Prop :=
  StronglySorted (fun a b => ltb b a = false) l.
End Sorted.

(** ** Insertion-ordered dictionaries *)

Section Dict.
Context {V : Type}.

Fixpoint dict_get (k : string) (d : list (string * V)) : option V :=
  match d with
  | [] => None
  | (k', v) :: d' => if String.eqb k k' then Some v else dict_get k d'
  end.

(** [d[k] = v]: an existing key keeps its position. *)
Fixpoint dict_set (k : string) (v : V) (d : list (string * V)) : list (string * V) :=
  match d with
  | [] => [(k, v)]
  | (k', v') :: d' =>
      if String.eqb k k' then (k, v) :: d' else (k', v') :: dict_set k v d'
  end.
End Dict.

(** [d[k].append(x)] on a [defaultdict(list)]. *)
Fixpoint dict_append {X : Type} (k : string) (x : X) (d : list (string * list X))
  : list (string * list X) :=
  match d with
  | [] => [(k, [x])]
  | (k', xs) :: d' =>
      if String.eqb k k' then (k, xs ++ [x]) :: d' else (k', xs) :: dict_append k x d'
  end.

(** ** The ontology accessor *)

Record onto_node : Type := mk_node {
  depth : Z;
  IC : Q;
  (** [node["meta"]["basicPropertyValues"]] as (pred, val) pairs; [None] when
      ["meta"] or ["basicPropertyValues"] is missing. *)
  basicPropertyValues : option (list (string * string))
}.

Record Ontology : Type := mk_ontology {
  node : string -> onto_node;
  (** [ontology.ancestors(n)]: the strict ancestors ([reflexive=False]). *)
  ancestors : string -> list string;
  parents : string -> list string;
  label : string -> string
}.

(** [ontology.ancestors(node, reflexive=True)] appends the node itself. *)
Definition ancestors_reflexive (o : Ontology) (n : string) : list string :=
  ancestors o n ++ [n].

Definition hasOBONamespace : string := "OIO:hasOBONamespace".

(** The loop
    [for basic_prop_val in ...: if pred == "OIO:hasOBONamespace": root = val]
    that the code repeats for a node: the last namespace value wins. *)
Definition node_root (n : onto_node) : option string :=
  match basicPropertyValues n with
  | None => None
  | Some bpvs =>
      fold_left (fun root bpv =>
                   if String.eqb (fst bpv) hasOBONamespace then Some (snd bpv) else root)
                bpvs None
  end.

(** ** [TrimmingCandidate] *)

Record TrimmingCandidate : Type := mk_candidate {
  node_id : string;
  node_label : string;
  covered_starting_nodes : gset string
}.

(** ** [TrimmingAlgorithm.nodes_have_same_root] *)

(** The result is [False], or the common root ([None] when no node has a
    namespace). *)
Inductive root_check : Type :=
| RootFalse
| RootIs (r : option string).

Fixpoint same_root_props (bpvs : list (string * string)) (common_root : option string)
  : root_check :=
  match bpvs with
  | [] => RootIs common_root
  | (pred, val) :: rest =>
      if String.eqb pred hasOBONamespace then
        if truthy common_root && negb (bool_decide (common_root = Some val))
        then RootFalse
        else same_root_props rest (Some val)
      else same_root_props rest common_root
  end.

Fixpoint same_root_nodes (o : Ontology) (node_ids : list string)
  (common_root : option string) : root_check :=
  match node_ids with
  | [] => RootIs common_root
  | n :: rest =>
      match basicPropertyValues (node o n) with
      | Some bpvs =>
          match same_root_props bpvs common_root with
          | RootFalse => RootFalse
          | RootIs r => same_root_nodes o rest r
          end
      | None => same_root_nodes o rest common_root
      end
  end.

Definition nodes_have_same_root (o : Ontology) (node_ids : list string) : root_check :=
  same_root_nodes o node_ids None.

(** ** [TrimmingAlgorithm.get_all_trimming_candidates] *)

(** [not self.nodeids_blacklist or x not in self.nodeids_blacklist]; a
    blacklist of [None] behaves as the empty list. *)
Definition not_blacklisted (blacklist : list string) (x : string) : bool :=
  match blacklist with
  | [] => true
  | _ => negb (bool_decide (x ∈ blacklist))
  end.

Definition candidate_ok (o : Ontology) (blacklist : list string)
  (min_distance_from_root : Z) (common_root : string) (ancestor : string) : bool :=
  let onto_anc := node o ancestor in
  let onto_anc_root := node_root onto_anc in
  (min_distance_from_root <=? depth onto_anc)
  && (negb (truthy onto_anc_root) || bool_decide (onto_anc_root = Some common_root))
  && not_blacklisted blacklist ancestor.

(** The two nested loops filling the [ancestors] dictionary. *)
Definition collect_for_node (o : Ontology) (blacklist : list string)
  (min_distance_from_root : Z) (common_root : string)
  (acc : list (string * list string)) (n : string) : list (string * list string) :=
  fold_left (fun acc ancestor =>
               if candidate_ok o blacklist min_distance_from_root common_root ancestor
               then dict_append ancestor n acc else acc)
            (ancestors_reflexive o n) acc.

Definition collect_ancestors (o : Ontology) (blacklist : list string)
  (min_distance_from_root : Z) (common_root : string) (node_ids : list string)
  : list (string * list string) :=
  fold_left (collect_for_node o blacklist min_distance_from_root common_root) node_ids [].

Definition keep_candidate (entry : string * list string) : bool :=
  (1 <? length (snd entry))%nat
  || match snd entry with
     | c :: _ => String.eqb (fst entry) c
     | [] => false
     end.

Definition get_all_trimming_candidates (o : Ontology) (blacklist : list string)
  (node_ids : list string) (min_distance_from_root : Z) : py (list TrimmingCandidate) :=
  match nodes_have_same_root o node_ids with
  | RootIs (Some common_root) =>
      if String.eqb common_root "" then Raise ValueError
      else
        Ok (map (fun entry => mk_candidate (fst entry) (label o (fst entry))
                                (list_to_set (snd entry)))
              (filter (fun entry => keep_candidate entry = true)
                 (collect_ancestors o blacklist min_distance_from_root common_root
                    node_ids)))
  | _ => Raise ValueError
  end.

(** ** [TrimmingAlgorithm.find_set_covering] *)

(** An entry of [effect_sets]: (score, covered set, label, id). *)
Record effect : Type := mk_effect {
  eff_score : Q;
  eff_covered : gset string;
  eff_label : string;
  eff_id : string
}.

Definition Qlt_bool (x y : Q) : bool := negb (Qle_bool y x).

(** The order of the keys [(- x[0], x[2])]. *)
Definition effect_ltb (a b : effect) : bool :=
  Qlt_bool (- eff_score a) (- eff_score b)
  || (Qeq_bool (- eff_score a) (- eff_score b) && str_ltb (eff_label a) (eff_label b)).

(** [len(s.covered_starting_nodes - included_elmts)] *)
Definition marginal (s : TrimmingCandidate) (included_elmts : gset string) : Q :=
  inject_Z (Z.of_nat (size (covered_starting_nodes s ∖ included_elmts))).

(** The candidates still to process, paired with their weights; without a
    weight list ([None] or empty) every candidate counts once, and with one
    [zip] stops at the shorter list. *)
Definition weighted_subsets (subsets : list TrimmingCandidate) (value : list Q)
  : list (TrimmingCandidate * Q) :=
  match value with
  | [] => map (fun s => (s, 1%Q)) subsets
  | _ => zip subsets value
  end.

Definition effect_of (included_elmts : gset string) (sv : TrimmingCandidate * Q) : effect :=
  mk_effect (snd sv * marginal (fst sv) included_elmts)
    (covered_starting_nodes (fst sv)) (node_label (fst sv)) (node_id (fst sv)).

Definition remaining (subsets : list TrimmingCandidate) (value : list Q)
  (elem_to_process : gset string) : list (TrimmingCandidate * Q) :=
  filter (fun sv => node_id (fst sv) ∈ elem_to_process) (weighted_subsets subsets value).

Definition effect_sets (subsets : list TrimmingCandidate) (value : list Q)
  (elem_to_process included_elmts : gset string) : list effect :=
  sorted effect_ltb (map (effect_of included_elmts) (remaining subsets value elem_to_process)).

(** [list.remove(x)]: drops the first element equal to [x]. *)
Fixpoint remove_first {A : Type} `{EqDecision A} (x : A) (l : list A) : list A :=
  match l with
  | [] => []
  | y :: l' => if decide (x = y) then l' else y :: remove_first x l'
  end.

(** [for elem in included_sets: if cond(elem): included_sets.remove(elem)]:
    the iteration goes by index over the list as it is being changed. *)
Fixpoint remove_while_iterating {A : Type} `{EqDecision A} (cond : A -> bool)
  (fuel i : nat) (lst : list A) : list A :=
  match fuel with
  | O => lst
  | S fuel' =>
      match lst !! i with
      | None => lst
      | Some elem =>
          if cond elem
          then remove_while_iterating cond fuel' (S i) (remove_first elem lst)
          else remove_while_iterating cond fuel' (S i) lst
      end
  end.

(** [effect_sets[0][3] in self.ontology.ancestors(elem[0])] *)
Definition superseded_by (o : Ontology) (new_id : string) (elem : string * gset string)
  : bool :=
  bool_decide (new_id ∈ ancestors o (fst elem)).

Definition drop_superseded (o : Ontology) (new_id : string)
  (included_sets : list (string * gset string)) : list (string * gset string) :=
  remove_while_iterating (superseded_by o new_id) (length included_sets) 0 included_sets.

Record cover_state : Type := mk_cover_state {
  elem_to_process : gset string;
  included_elmts : gset string;
  included_sets : list (string * gset string)
}.

(** [not max_num_subsets or len(included_sets) < max_num_subsets] *)
Definition below_cap (max_num_subsets : option Z) (n : nat) : bool :=
  match max_num_subsets with
  | None => true
  | Some m => (m =? 0) || (Z.of_nat n <? m)
  end.

Definition cover_guard (universe : gset string) (max_num_subsets : option Z)
  (st : cover_state) : bool :=
  negb (size (elem_to_process st) =? 0)%nat
  && negb (bool_decide (included_elmts st = universe))
  && below_cap max_num_subsets (length (included_sets st)).

(** The candidate that one iteration selects: [effect_sets[0]]. *)
Definition select (subsets : list TrimmingCandidate) (value : list Q)
  (st : cover_state) : option effect :=
  head (effect_sets subsets value (elem_to_process st) (included_elmts st)).

(** The body of the [while] loop. *)
Definition cover_step (onto : option Ontology) (subsets : list TrimmingCandidate)
  (value : list Q) (st : cover_state) : py cover_state :=
  match select subsets value st with
  | None => Raise IndexError
  | Some best =>
      let kept :=
        match onto with
        | Some o => drop_superseded o (eff_id best) (included_sets st)
        | None => included_sets st
        end in
      Ok (mk_cover_state (elem_to_process st ∖ {[eff_id best]})
            (included_elmts st ∪ eff_covered best)
            (kept ++ [(eff_id best, eff_covered best)]))
  end.

(** The [while] loop; every iteration takes one id out of [elem_to_process],
    so [size elem_to_process] iterations are enough (lemma
    [cover_loop_finished]). *)
Fixpoint cover_loop (fuel : nat) (onto : option Ontology)
  (subsets : list TrimmingCandidate) (value : list Q) (universe : gset string)
  (max_num_subsets : option Z) (st : cover_state) : py cover_state :=
  match fuel with
  | O => Ok st
  | S fuel' =>
      if cover_guard universe max_num_subsets st then
        st' ← cover_step onto subsets value st;
        cover_loop fuel' onto subsets value universe max_num_subsets st'
      else Ok st
  end.

Definition subset_ids (subsets : list TrimmingCandidate) : gset string :=
  list_to_set (map node_id subsets).

Definition universe_of (subsets : list TrimmingCandidate) : gset string :=
  ⋃ (map covered_starting_nodes subsets).

(** The result is [None], or the list [included_sets]. *)
Definition find_set_covering (onto : option Ontology) (subsets : list TrimmingCandidate)
  (value : list Q) (max_num_subsets : option Z)
  : py (option (list (string * gset string))) :=
  let elem_to_process := subset_ids subsets in
  if negb (bool_decide (value = []))
     && negb (length value =? size elem_to_process)%nat
  then Ok None
  else
    st ← cover_loop (size elem_to_process) onto subsets value (universe_of subsets)
           max_num_subsets (mk_cover_state elem_to_process ∅ []);
    Ok (Some (included_sets st)).

(** ** The trimming algorithms *)

Record TrimmingAlgorithm : Type := mk_trimming {
  ontology : Ontology;
  min_distance_from_root : Z;
  (** [None] is the empty list: the code only tests [not nodeids_blacklist]. *)
  nodeids_blacklist : list string
}.

(** The result of [trim]: the under-coverage flag and the selected terms with
    the input terms each of them covers. *)
Definition trim_result : Type := bool * list (string * gset string).

(** [covered_terms = set([e for _, covered in best_terms for e in covered])];
    [return covered_terms != set(node_ids), best_terms] *)
Definition covered_terms (best_terms : list (string * gset string)) : gset string :=
  ⋃ (map snd best_terms).

Definition report (node_ids : list string) (best : option (list (string * gset string)))
  : py trim_result :=
  match best with
  | None => Raise TypeError
  | Some best_terms =>
      Ok (negb (bool_decide (covered_terms best_terms = list_to_set node_ids)), best_terms)
  end.

(** *** [TrimmingAlgorithmIC] *)

Record TrimmingAlgorithmIC : Type := mk_trimming_ic {
  ic_base :> TrimmingAlgorithm;
  slim_terms_ic_bonus_perc : Z;
  (** [None] is the empty set: the code only tests [slim_set and ...]. *)
  slim_set : gset string
}.

Definition get_candidate_ic_value (self : TrimmingAlgorithmIC)
  (candidate : TrimmingCandidate) (node_ids : list string) : Q :=
  let candidate_node := node (ontology self) (node_id candidate) in
  if negb (bool_decide (node_id candidate ∈ node_ids))
     && (depth candidate_node <? min_distance_from_root self)
  then 0%Q
  else if negb (bool_decide (slim_set self = ∅))
          && bool_decide (node_id candidate ∈ slim_set self)
  then (IC candidate_node * inject_Z (1 + slim_terms_ic_bonus_perc self))%Q
  else IC candidate_node.

Definition trim_IC (self : TrimmingAlgorithmIC) (node_ids : list string)
  (max_num_nodes : Z) : py trim_result :=
  common_ancestors ← get_all_trimming_candidates (ontology self)
                        (nodeids_blacklist self) node_ids 0;
  let values := map (fun c => get_candidate_ic_value self c node_ids) common_ancestors in
  let common_ancestors :=
    map fst (filter (fun cv => Qlt_bool 0 (snd cv) = true) (zip common_ancestors values)) in
  let values := filter (fun v => Qlt_bool 0 v = true) values in
  best_terms ← find_set_covering (Some (ontology self)) common_ancestors values
                 (Some max_num_nodes);
  report node_ids best_terms.

(** *** Iterating over a set *)

Section SetOrder.
Context {A : Type} `{Countable A}.

(** [s.pop()]: some element of the set; the oracle [pick] names its
    position in an enumeration of the set. *)
Definition set_pop (pick : gset A -> nat) (s : gset A) : option (A * gset A) :=
  match elements s with
  | [] => None
  | x0 :: _ =>
      let x := nth (pick s mod length (elements s))%nat (elements s) x0 in
      Some (x, s ∖ {[x]})
  end.

Fixpoint set_iter_from (fuel : nat) (pick : gset A -> nat) (s : gset A) : list A :=
  match fuel with
  | O => []
  | S fuel' =>
      match set_pop pick s with
      | None => []
      | Some (x, s') => x :: set_iter_from fuel' pick s'
      end
  end.

(** [for x in s] or [list(s)]: the elements in some order. *)
Definition set_iter (pick : gset A -> nat) (s : gset A) : list A :=
  set_iter_from (size s) pick s.
End SetOrder.

(** *** [TrimmingAlgorithmLCA] *)

Definition candidates_dict_t : Type := list (string * (string * gset string)).

(** [max(...)] of a list with first element [x0]. *)
Definition max_from (x0 : Z) (l : list Z) : Z := fold_left Z.max l x0.

(** [set(node_to_cands_map[node])]: the candidates covering [node]; the map
    is read in no other way. *)
Definition node_to_cands (candidates_dict : candidates_dict_t) (n : string) : gset string :=
  list_to_set (map fst (filter (fun e => n ∈ snd (snd e)) candidates_dict)).

Definition dict_item (candidates_dict : candidates_dict_t) (k : string)
  : py (string * gset string) :=
  match dict_get k candidates_dict with
  | Some v => Ok v
  | None => Raise KeyError
  end.

(** The [for best_cand in best_cands] loop. *)
Fixpoint lca_select (candidates_dict : candidates_dict_t)
  (best_cands : list (string * gset string))
  (cands_ids_to_process : gset string) (selected_cands_ids : list string)
  : py (gset string * list string) :=
  match best_cands with
  | [] => Ok (cands_ids_to_process, selected_cands_ids)
  | best_cand :: rest =>
      item ← dict_item candidates_dict (fst best_cand);
      lca_select candidates_dict rest
        (fold_left (fun tp n => tp ∖ node_to_cands candidates_dict n)
           (elements (snd item)) cands_ids_to_process)
        (selected_cands_ids ++ [fst best_cand])
  end.

(** The body of the [while] loop, after [cand_id] was popped. *)
Definition lca_step (o : Ontology) (candidates_dict : candidates_dict_t)
  (cand_id : string) (cands_ids_to_process : gset string)
  (selected_cands_ids : list string) : py (gset string * list string) :=
  cand ← dict_item candidates_dict cand_id;
  let comparable_cands :=
    map (fun e => (fst e, snd (snd e)))
      (filter (fun e => negb (String.eqb (fst e) cand_id)
                        && forallb (fun child_id => bool_decide (child_id ∈ snd (snd e)))
                             (elements (snd cand)) = true)
         candidates_dict) in
  match comparable_cands with
  | [] => Ok (cands_ids_to_process, selected_cands_ids ++ [cand_id])
  | c0 :: _ =>
      let max_len :=
        max_from (Z.of_nat (size (snd c0)))
          (map (fun c => Z.of_nat (size (snd c))) comparable_cands) in
      let best_cands :=
        filter (fun c => Z.of_nat (size (snd c)) = max_len) comparable_cands in
      match best_cands with
      | [] => Raise IndexError
      | b0 :: _ =>
          let '(best_cands, max_weight) :=
            if (1 <? length best_cands)%nat then
              let weighted_best_cands :=
                sorted (fun a b => fst b <? fst a)
                  (map (fun c => (depth (node o (fst c)), c)) best_cands) in
              let max_weight :=
                max_from (depth (node o (fst b0))) (map fst weighted_best_cands) in
              (map snd (filter (fun w => fst w = max_weight) weighted_best_cands),
               max_weight)
            else (best_cands, depth (node o (fst b0))) in
          match best_cands with
          | [] => Raise IndexError
          | b :: _ =>
              let best_cands :=
                if (size (snd b) <? size (snd cand))%nat
                   || ((size (snd b) <? size (snd cand))%nat
                       && (max_weight <? depth (node o cand_id)))
                then [(cand_id, snd cand)] else best_cands in
              lca_select candidates_dict best_cands cands_ids_to_process
                selected_cands_ids
          end
      end
  end.

(** [while len(cands_ids_to_process) > 0]: every iteration pops one id, so
    [size cands_ids_to_process] iterations are enough (lemma
    [lca_loop_fuel]). *)
Fixpoint lca_loop (fuel : nat) (pick : gset string -> nat) (o : Ontology)
  (candidates_dict : candidates_dict_t) (cands_ids_to_process : gset string)
  (selected_cands_ids : list string) : py (list string) :=
  match fuel with
  | O => Ok selected_cands_ids
  | S fuel' =>
      match set_pop pick cands_ids_to_process with
      | None => Ok selected_cands_ids
      | Some (cand_id, rest) =>
          st ← lca_step o candidates_dict cand_id rest selected_cands_ids;
          lca_loop fuel' pick o candidates_dict (fst st) (snd st)
      end
  end.

Definition lca_candidates_dict (cands : list TrimmingCandidate) : candidates_dict_t :=
  fold_left (fun d c => dict_set (node_id c) (node_label c, covered_starting_nodes c) d)
    cands [].

Definition lca_selected (pick : gset string -> nat) (self : TrimmingAlgorithm)
  (candidates_dict : candidates_dict_t) : py (list string) :=
  let cands_ids_to_process : gset string := list_to_set (map fst candidates_dict) in
  lca_loop (size cands_ids_to_process) pick (ontology self) candidates_dict
    cands_ids_to_process [].

(** [[(node_id, candidates_dict[node_id][1]) for node_id in selected]] *)
Fixpoint lca_items (candidates_dict : candidates_dict_t) (ids : list string)
  : py (list (string * gset string)) :=
  match ids with
  | [] => Ok []
  | k :: rest =>
      item ← dict_item candidates_dict k;
      items ← lca_items candidates_dict rest;
      Ok ((k, snd item) :: items)
  end.

Definition trim_LCA (pick : gset string -> nat) (self : TrimmingAlgorithm)
  (node_ids : list string) (max_num_nodes : Z) : py trim_result :=
  cands ← get_all_trimming_candidates (ontology self) (nodeids_blacklist self) node_ids
            (min_distance_from_root self);
  let candidates_dict := lca_candidates_dict cands in
  selected_cands_ids ← lca_selected pick self candidates_dict;
  items ← lca_items candidates_dict selected_cands_ids;
  if Z.of_nat (length selected_cands_ids) <=? max_num_nodes then Ok (false, items)
  else
    best_terms ← find_set_covering (Some (ontology self))
                   (map (fun it => mk_candidate (fst it) (label (ontology self) (fst it))
                                     (snd it)) items)
                   [] (Some max_num_nodes);
    report node_ids best_terms.

(** *** [TrimmingAlgorithmNaive] *)

(** A path is a non-empty tuple of ids: its first id and the rest. *)
Definition path : Type := string * list string.

Definition path_list (p : path) : list string := fst p :: snd p.
Definition path_len (p : path) : nat := length (path_list p).

(** [tuple(new_path)], or [(node_id,)] when [new_path] is empty. *)
Definition path_of (node_id : string) (new_path : list string) : path :=
  match new_path with
  | [] => (node_id, [])
  | x :: rest => (x, rest)
  end.

(** [l.pop()] on a list: the last element and what is left. *)
Fixpoint list_pop {A : Type} (l : list A) : option (A * list A) :=
  match l with
  | [] => None
  | x :: l' =>
      match list_pop l' with
      | None => Some (x, [])
      | Some (y, rest) => Some (y, x :: rest)
      end
  end.

(** [x[i]] for a negative index [i = - k] with [len(x) >= k]. *)
Definition from_end (k : nat) (x : path) : option string :=
  path_list x !! (path_len x - k)%nat.

Fixpoint get_all_paths_to_root (fuel : nat) (o : Ontology) (node_id : string)
  (min_distance : Z) (blacklist : list string) (previous_path : list string)
  (root_node : option string) : py (gset path) :=
  match fuel with
  | O => Raise RecursionError
  | S fuel' =>
      let new_path :=
        if not_blacklisted blacklist node_id then previous_path ++ [node_id]
        else previous_path in
      let parents0 :=
        filter (fun parent => (min_distance <=? depth (node o parent)) = true)
          (parents o node_id) in
      let parents1 :=
        if truthy root_node then
          filter (fun parent =>
                    truthy (node_root (node o parent))
                    && bool_decide (node_root (node o parent) = root_node) = true)
            parents0
        else parents0 in
      match parents1 with
      | [] => Ok {[ path_of node_id new_path ]}
      | _ =>
          fold_left (fun acc parent =>
                       paths_to_return ← acc;
                       paths ← get_all_paths_to_root fuel' o parent min_distance
                                 blacklist new_path root_node;
                       Ok (paths_to_return ∪ paths))
            parents1 (Ok ∅)
      end
  end.

Record naive_state : Type := mk_naive_state {
  term_paths : gmap string (gset path);
  ancestor_paths : gmap string (list path);
  final_terms_set : list (string * gset string)
}.

(** [term_paths[node_id].add(path); ancestor_paths[path[-1]].append(path)] *)
Definition naive_add_path (node_id : string) (st : naive_state) (p : path) : naive_state :=
  mk_naive_state
    (<[node_id := default ∅ (term_paths st !! node_id) ∪ {[p]}]> (term_paths st))
    (<[List.last (snd p) (fst p) :=
         default [] (ancestor_paths st !! List.last (snd p) (fst p)) ++ [p]]>
       (ancestor_paths st))
    (final_terms_set st).

(** Step 1: the paths of every term. [fuel] bounds the recursion depth of
    [get_all_paths_to_root]. *)
Fixpoint naive_collect (fuel : nat) (pick : gset path -> nat) (self : TrimmingAlgorithm)
  (node_ids : list string) (st : naive_state) : py naive_state :=
  match node_ids with
  | [] => Ok st
  | node_id :: rest =>
      paths ← get_all_paths_to_root fuel (ontology self) node_id
                (min_distance_from_root self) (nodeids_blacklist self) []
                (node_root (node (ontology self) node_id));
      naive_collect fuel pick self rest
        (fold_left (naive_add_path node_id) (set_iter pick paths) st)
  end.

(** [for path in related_paths: term_paths[path[0]].discard(path)] *)
Definition discard_paths (related_paths : list path) (tp : gmap string (gset path))
  : gmap string (gset path) :=
  fold_left (fun tp p => <[fst p := default ∅ (tp !! fst p) ∖ {[p]}]> tp) related_paths tp.

(** The inner [while len(curr_path) > 1] walk; [k] is [- i]. Every iteration
    pops an id of [curr_path]. *)
Fixpoint naive_walk (fuel : nat) (related_paths : list path) (curr_path : list string)
  (k : nat) (selected : string) (ap : gmap string (list path))
  (tp : gmap string (gset path))
  : string * gmap string (list path) * gmap string (gset path) :=
  match fuel with
  | O => (selected, ap, tp)
  | S fuel' =>
      if (1 <? length curr_path)%nat then
        let k := S k in
        match list_pop curr_path with
        | None => (selected, ap, tp)
        | Some (curr_highest_ancestor, curr_path) =>
            if negb (forallb (fun x => (k <=? path_len x)%nat) related_paths)
            then (selected, ap, tp)
            else if forallb (fun x => bool_decide (from_end k x = Some curr_highest_ancestor))
                      related_paths
            then naive_walk fuel' related_paths curr_path k curr_highest_ancestor
                   (delete curr_highest_ancestor ap) (discard_paths related_paths tp)
            else naive_walk fuel' related_paths curr_path k selected ap tp
        end
      else (selected, ap, tp)
  end.

(** [term_paths_copy] is a sorted list at first and a copy of the set
    afterwards. *)
Inductive paths_copy : Type :=
| CopyList (l : list path)
| CopySet (s : gset path).

(** [term_paths_copy.pop()] *)
Definition pop_copy (pick : gset path -> nat) (c : paths_copy) : option path :=
  match c with
  | CopyList l => fst <$> list_pop l
  | CopySet s => fst <$> set_pop pick s
  end.

(** The [while len(term_paths_copy) > 0] loop for one term; an iteration that
    goes on deletes a key of [ancestor_paths], so [size ancestor_paths + 1]
    iterations are enough (lemma [naive_merge_term_fuel]). *)
Fixpoint naive_merge_term (fuel : nat) (pick : gset path -> nat) (node_id : string)
  (term_paths_copy : paths_copy) (st : naive_state) : naive_state :=
  match fuel with
  | O => st
  | S fuel' =>
      match pop_copy pick term_paths_copy with
      | None => st
      | Some p =>
          match list_pop (path_list p) with
          | None => st
          | Some (selected_highest_ancestor, curr_path) =>
              let related_paths :=
                default [] (ancestor_paths st !! selected_highest_ancestor) in
              match related_paths with
              | [] => st
              | _ =>
                  let covered_nodes_set : gset string :=
                    list_to_set (map fst related_paths) in
                  let ap := delete selected_highest_ancestor (ancestor_paths st) in
                  let '(selected, ap, tp) :=
                    match curr_path with
                    | [] => (selected_highest_ancestor, ap, term_paths st)
                    | c0 :: _ =>
                        if forallb (fun x => String.eqb (fst x) c0) related_paths
                        then (c0, ap, term_paths st)
                        else naive_walk (length curr_path) related_paths curr_path 1
                               selected_highest_ancestor ap (term_paths st)
                    end in
                  let tp := discard_paths related_paths tp in
                  let st' :=
                    mk_naive_state tp ap
                      (dict_set selected covered_nodes_set (final_terms_set st)) in
                  let left := default ∅ (tp !! node_id) in
                  if (0 <? size left)%nat
                  then naive_merge_term fuel' pick node_id (CopySet left) st'
                  else st'
              end
          end
      end
  end.

(** [sorted(term_paths[node_id].copy(), key=lambda x: len(x))] *)
Definition sorted_paths (pick : gset path -> nat) (s : gset path) : list path :=
  sorted (fun a b => (path_len a <? path_len b)%nat) (set_iter pick s).

(** Step 2: [for node_id in sorted(node_ids)]. *)
Definition naive_merge (pick : gset path -> nat) (node_ids : list string)
  (st : naive_state) : naive_state :=
  fold_left (fun st node_id =>
               naive_merge_term (S (size (ancestor_paths st))) pick node_id
                 (CopyList (sorted_paths pick (default ∅ (term_paths st !! node_id)))) st)
    (sorted str_ltb node_ids) st.

Definition naive_groups (fuel : nat) (pick : gset path -> nat) (self : TrimmingAlgorithm)
  (node_ids : list string) : py (list (string * gset string)) :=
  st ← naive_collect fuel pick self node_ids (mk_naive_state ∅ ∅ []);
  Ok (final_terms_set (naive_merge pick node_ids st)).

Definition trim_Naive (fuel : nat) (pick : gset path -> nat) (self : TrimmingAlgorithm)
  (node_ids : list string) (max_num_nodes : Z) : py trim_result :=
  final_terms_set ← naive_groups fuel pick self node_ids;
  if Z.of_nat (length final_terms_set) <=? max_num_nodes then Ok (false, final_terms_set)
  else
    best_terms ← find_set_covering (Some (ontology self))
                   (map (fun kv => mk_candidate (fst kv) (label (ontology self) (fst kv))
                                     (snd kv)) final_terms_set)
                   [] (Some max_num_nodes);
    report node_ids best_terms.

(** ** The term reduction pipeline ([OntologySentenceGenerator]) *)

(** The state shared by the pipeline calls: [terms_already_covered] and the
    set [ancestors_covering_multiple_children] of the current call. *)
Record reduce_state : Type := mk_reduce_state {
  terms_already_covered : gset string;
  ancestors_covering_multiple_children : gset string
}.

(** [terms[0:n]] *)
Definition slice_to {A : Type} (n : Z) (l : list A) : list A :=
  if 0 <=? n then take (Z.to_nat n) l
  else take (length l - Z.to_nat (- n))%nat l.

(** [high_priority_terms and term in high_priority_terms]; [None] is the
    empty list. *)
Definition is_high_priority (high_priority_terms : list string) (term : string) : bool :=
  negb (bool_decide (high_priority_terms = []))
  && bool_decide (term ∈ high_priority_terms).

Section Pipeline.
(** The options of the generator read by the pipeline. *)
Variable onto : Ontology.
Variable max_terms : Z.
Variable add_mul_common_anc : bool.
Variable del_overlap remove_parents remove_child_terms : bool.
Variable exclude_terms : list string.
(** [self.dist_root], after the default was filled in. *)
Variable dist_root : list (string * Z).
(** [get_best_nodes] of [ontology_tools], with the configured trimming
    algorithm: from the terms, the number of terms to keep and the state it
    returns the trimmed terms, the [add_others] flag and the new state, or
    raises. *)
Variable get_best_nodes :
  list string -> Z -> Z -> reduce_state -> py (list string * bool * reduce_state).
(** The order in which a set of terms is iterated. *)
Variable pick : gset string -> nat.

(** [set(ontology.ancestors(term)).intersection(set(terms))] *)
Definition ancestors_among (terms : list string) (term : string) : gset string :=
  list_to_set (ancestors onto term) ∩ list_to_set terms.

(** [remove_children_if_parents_present]; [record] says whether
    [ancestors_covering_multiple_children] is given (not [None]). *)
Definition remove_children_if_parents_present (terms : list string)
  (high_priority_terms : list string) (record : bool) (st : reduce_state)
  : list string * reduce_state :=
  let keep term :=
    (size (ancestors_among terms term) =? 0)%nat
    || is_high_priority high_priority_terms term in
  let terms_nochildren := filter (fun term => keep term = true) terms in
  let acmc :=
    fold_left (fun acc term =>
                 if keep term then acc
                 else if record
                      then acc ∪ set_map (label onto) (ancestors_among terms term)
                      else acc)
      terms (ancestors_covering_multiple_children st) in
  if (length terms_nochildren <? length terms)%nat
  then (terms_nochildren,
        mk_reduce_state
          (terms_already_covered st
           ∪ (list_to_set terms ∖ list_to_set terms_nochildren)) acmc)
  else (terms, mk_reduce_state (terms_already_covered st) acmc).

(** [remove_parents_if_child_present] *)
Definition remove_parents_if_child_present (terms : list string)
  (high_priority_terms : list string) (st : reduce_state) : list string * reduce_state :=
  let removed : gset string :=
    list_to_set
      (filter (fun ancestor =>
                 bool_decide (high_priority_terms = [])
                 || negb (bool_decide (ancestor ∈ high_priority_terms)) = true)
         (concat (map (ancestors onto) terms))) in
  let terms_no_ancestors := set_iter pick (list_to_set terms ∖ removed) in
  if (length terms_no_ancestors <? length terms)%nat
  then (terms_no_ancestors,
        mk_reduce_state
          (terms_already_covered st
           ∪ (list_to_set terms ∖ list_to_set terms_no_ancestors))
          (ancestors_covering_multiple_children st))
  else (terms, st).

(** [get_trimmed_terms_by_common_ancestor]; [terms] is the collection in
    its iteration order, and the result is
    [(terms, add_others, new state)]. *)
Definition get_trimmed_terms_by_common_ancestor (terms : list string)
  (st : reduce_state) (aspect : string) (high_priority_terms : list string)
  : py (list string * bool * reduce_state) :=
  let st := mk_reduce_state (terms_already_covered st) ∅ in
  let terms_high_priority :=
    filter (fun term => is_high_priority high_priority_terms term = true) terms in
  let '(terms_high_priority, st) :=
    if max_terms <? Z.of_nat (length terms_high_priority)
    then remove_children_if_parents_present terms_high_priority [] add_mul_common_anc st
    else (terms_high_priority, st) in
  hp ← (if max_terms <? Z.of_nat (length terms_high_priority)
        then match dict_get aspect dist_root with
             | Some d => get_best_nodes terms_high_priority max_terms d st
             | None => Raise KeyError
             end
        else Ok (terms_high_priority, false,
                 mk_reduce_state
                   (terms_already_covered st ∪ list_to_set terms_high_priority)
                   (ancestors_covering_multiple_children st)));
  let '(terms_high_priority, add_others_highp, st) := hp in
  let terms_low_priority :=
    filter (fun term => negb (is_high_priority high_priority_terms term) = true) terms in
  let trimming_threshold := max_terms - Z.of_nat (length terms_high_priority) in
  lp ← (if (0 <? trimming_threshold)
           && (trimming_threshold <? Z.of_nat (length terms_low_priority))
        then match dict_get aspect dist_root with
             | Some d => get_best_nodes terms_low_priority trimming_threshold d st
             | None => Raise KeyError
             end
        else if (trimming_threshold <=? 0) && (0 <? length terms_low_priority)%nat
        then Ok (terms_low_priority, true, st)
        else Ok (terms_low_priority, false, st));
  let '(terms_low_priority, add_others_lowp, st) := lp in
  let terms_low_priority :=
    set_iter pick (list_to_set terms_low_priority ∖ list_to_set terms_high_priority) in
  let terms := terms_high_priority ++ terms_low_priority in
  Ok (slice_to max_terms terms, add_others_highp || add_others_lowp, st).

(** [reduce_terms]: the result is
    [(terms, trimmed, add_others, new state)]. *)
Definition reduce_terms (terms : gset string) (st : reduce_state) (aspect : string)
  (high_priority_term_ids : list string)
  : py (list string * bool * bool * reduce_state) :=
  let st := mk_reduce_state (terms_already_covered st) ∅ in
  let terms := if del_overlap then terms ∖ terms_already_covered st else terms in
  let terms :=
    if negb (bool_decide (exclude_terms = [])) then terms ∖ list_to_set exclude_terms
    else terms in
  let terms := set_iter pick terms in
  let '(terms, st) :=
    if remove_parents then remove_parents_if_child_present terms high_priority_term_ids st
    else (terms, st) in
  tr ← (if (0 <? max_terms) && (max_terms <? Z.of_nat (length terms))
        then
          r ← get_trimmed_terms_by_common_ancestor terms st aspect high_priority_term_ids;
          Ok (fst (fst r), true, snd (fst r), snd r)
        else Ok (terms, false, false,
                 mk_reduce_state (terms_already_covered st ∪ list_to_set terms)
                   (ancestors_covering_multiple_children st)));
  let '(terms, trimmed, add_others, st) := tr in
  let '(terms, st) :=
    if remove_child_terms
    then remove_children_if_parents_present terms high_priority_term_ids
           add_mul_common_anc st
    else (terms, st) in
  Ok (terms, trimmed, add_others, st).
End Pipeline.

(** ** Sentences *)

(** *** Python string operations *)

(** [s[i] == t[j]] for indices in range. *)
Definition same_char (s : string) (i : nat) (t : string) (j : nat) : bool :=
  bool_decide (String.get i s = String.get j t).

(** [s.replace(old, new)] for a non-empty [old]: [skip] characters of a match
    are still to be dropped. *)
Fixpoint replace_from (old new : string) (skip : nat) (s : string) : string :=
  match s with
  | EmptyString => EmptyString
  | String c s' =>
      match skip with
      | S k => replace_from old new k s'
      | O =>
          if String.prefix old s
          then new +:+ replace_from old new (String.length old - 1) s'
          else String c (replace_from old new 0 s')
      end
  end.

(** [s.replace("", new)] puts [new] around every character. *)
Fixpoint intersperse_str (new s : string) : string :=
  match s with
  | EmptyString => new
  | String c s' => new +:+ String c (intersperse_str new s')
  end.

Definition str_replace (old new s : string) : string :=
  match old with
  | EmptyString => intersperse_str new s
  | _ => replace_from old new 0 s
  end.

(** The ASCII characters that [str.strip()] removes. *)
Definition is_space (c : ascii) : bool :=
  let n := nat_of_ascii c in
  ((9 <=? n) && (n <=? 13) || (28 <=? n) && (n <=? 32))%nat.

Fixpoint lstrip (s : string) : string :=
  match s with
  | EmptyString => EmptyString
  | String c s' => if is_space c then lstrip s' else s
  end.

Fixpoint rstrip (s : string) : string :=
  match s with
  | EmptyString => EmptyString
  | String c s' =>
      match rstrip s' with
      | EmptyString => if is_space c then EmptyString else String c EmptyString
      | r => String c r
      end
  end.

Definition strip (s : string) : string := rstrip (lstrip s).

(** [s.split(" ")] *)
Fixpoint split_space (s : string) : list string :=
  match s with
  | EmptyString => [EmptyString]
  | String c s' =>
      if Ascii.eqb c " "%char then EmptyString :: split_space s'
      else match split_space s' with
           | w :: ws => String c w :: ws
           | [] => [String c EmptyString]
           end
  end.

(** [sep.join(l)] *)
Fixpoint join (sep : string) (l : list string) : string :=
  match l with
  | [] => EmptyString
  | [x] => x
  | x :: rest => x +:+ sep +:+ join sep rest
  end.

(** *** [merge_postfix_phrases] *)

Section MergePostfix.
(** [inflect.engine().plural] *)
Variable plural : string -> string.

(** [sorted(zip(phrases, lengths), key=lambda x: x[1])[0][0]] *)
Definition shortest_phrase (postfix_phrases : list string) : option string :=
  fst <$> head (sorted (fun a b => (snd a <? snd b)%nat)
                  (zip postfix_phrases (map String.length postfix_phrases))).

(** The first loop: [first_part] grows while all phrases agree at [idx]. *)
Fixpoint common_first (postfix_phrases : list string) (shortest : string)
  (n idx : nat) (first_part : string) : string :=
  match n with
  | O => first_part
  | S n' =>
      match String.get idx shortest with
      | None => first_part
      | Some letter =>
          if forallb (fun x => same_char x idx shortest idx) postfix_phrases
          then common_first postfix_phrases shortest n' (S idx)
                 (first_part +:+ String letter EmptyString)
          else first_part
      end
  end.

(** The second loop: [last_part] grows from the end. *)
Fixpoint common_last (postfix_phrases : list string) (shortest : string)
  (n idx : nat) (last_part : string) : string :=
  match n with
  | O => last_part
  | S n' =>
      match String.get (String.length shortest - idx - 1) shortest with
      | None => last_part
      | Some letter =>
          if forallb (fun x => same_char x (String.length x - idx - 1)
                                 shortest (String.length shortest - idx - 1))
               postfix_phrases
          then common_last postfix_phrases shortest n' (S idx)
                 (String letter last_part)
          else last_part
      end
  end.

Definition merge_postfix_phrases (postfix_phrases : list string) : string :=
  let postfix_phrases :=
    filter (fun postfix => postfix <> EmptyString) postfix_phrases in
  match postfix_phrases with
  | [] => EmptyString
  | [only] => only
  | _ =>
      match shortest_phrase postfix_phrases with
      | None => EmptyString
      | Some shortest =>
          let first_part :=
            common_first postfix_phrases shortest (String.length shortest) 0
              EmptyString in
          let last_part :=
            common_last postfix_phrases shortest (String.length shortest) 0
              EmptyString in
          let new_phrases :=
            map (fun phrase =>
                   str_replace last_part EmptyString
                     (str_replace first_part EmptyString phrase))
              postfix_phrases in
          let last_part :=
            if (length (split_space (strip last_part)) =? 1)%nat
            then plural last_part else last_part in
          if (2 <? length new_phrases)%nat then
            first_part +:+ join ", " (removelast new_phrases) +:+ ", and "
            +:+ List.last new_phrases EmptyString +:+ last_part
          else if (1 <? length new_phrases)%nat then
            first_part +:+ join " and " new_phrases +:+ last_part
          else first_part +:+ List.hd EmptyString new_phrases +:+ last_part
      end
  end.
End MergePostfix.

(** *** [Sentence] and [SentenceMerger] *)

Module Sentence.
(** The fields that [merge_sentences_with_same_prefix] passes to the
    constructor. *)
Record t : Type := mk {
  prefix : string;
  terms_ids : list string;
  postfix : string;
  text : string;
  aspect : string;
  evidence_group : string;
  terms_merged : bool;
  trimmed : bool;
  additional_prefix : string;
  qualifier : string;
  ancestors_covering_multiple_terms : gset string
}.
End Sentence.

Module SentenceMerger.
Record t : Type := mk {
  postfix_list : list string;
  terms_ids : gset string;
  term_postfix_dict : gmap string string;
  evidence_groups : list string;
  term_evgroup_dict : gmap string string;
  additional_prefix : string;
  aspect : string;
  qualifier : string;
  ancestors_covering_multiple_terms : gset string;
  any_trimmed : bool
}.

(** [SentenceMerger()] *)
Definition init : t := mk [] ∅ ∅ [] ∅ "" "" "" ∅ false.
End SentenceMerger.



Section MergeSentences.
Variable plural : string -> string.
Variable join_terms : list string -> string.
Variable onto : Ontology.
(** [self.prepostfix_sentences_map]: (aspect, evidence group, qualifier)
    to (prefix, postfix). *)
Variable prepostfix_sentences_map : string * string * string -> option (string * string).
Variable pick : gset string -> nat.





End MergeSentences.

(** ** Concrete inputs used by the examples *)

(** Every node is in the namespace [bp]; [B] is a child of [A]. *)
Definition onto_AB : Ontology :=
  mk_ontology (fun _ => mk_node 5 1 (Some [(hasOBONamespace, "bp")]))
    (fun n => if String.eqb n "B" then ["A"] else [])
    (fun n => if String.eqb n "B" then ["A"] else [])
    (fun n => n).

(** The root [R] has the children [n] and [P]; [m] is a child of [n] and of
    [P], and [m2] is a child of [P]. *)
Definition onto_diamond : Ontology :=
  let par (n : string) : list string :=
    if String.eqb n "P" then ["R"] else if String.eqb n "n" then ["R"]
    else if String.eqb n "m" then ["n"; "P"] else if String.eqb n "m2" then ["P"]
    else [] in
  let anc (n : string) : list string :=
    if String.eqb n "P" then ["R"] else if String.eqb n "n" then ["R"]
    else if String.eqb n "m" then ["n"; "P"; "R"]
    else if String.eqb n "m2" then ["P"; "R"] else [] in
  let dep (n : string) : Z :=
    if String.eqb n "R" then 0 else if String.eqb n "P" then 2
    else if String.eqb n "n" then 1 else 3 in
  mk_ontology (fun n => mk_node (dep n) 1 (Some [(hasOBONamespace, "bp")]))
    anc par (fun n => n).

(** Two unrelated nodes in two namespaces. *)
Definition onto_two_roots : Ontology :=
  mk_ontology
    (fun n => mk_node 4 1
                (Some [(hasOBONamespace,
                        if String.eqb n "a" then "biological_process"
                        else "cellular_component")]))
    (fun _ => []) (fun _ => []) (fun n => n).

(** A term with a short and a long path to the root [R]. *)
Definition onto_two_paths : Ontology :=
  let par (n : string) : list string :=
    if String.eqb n "m" then ["n"; "P"] else if String.eqb n "n" then ["R"]
    else if String.eqb n "P" then ["Q"] else if String.eqb n "Q" then ["R"]
    else [] in
  mk_ontology (fun _ => mk_node 5 1 (Some [(hasOBONamespace, "bp")]))
    (fun _ => []) par (fun n => n).

(** A pluraliser that returns a text holding no word as it is, as
    [inflect.engine().plural] does, and that otherwise appends an [s]. *)
Definition plural_s (text : string) : string :=
  if String.eqb (strip text) "" then text else text +:+ "s".

(** ** Notions used by the properties *)

(** The weight of the [i]-th candidate: [1] without a weight list. *)
Definition weight_at (value : list Q) (i : nat) : option Q :=
  match value with
  | [] => Some 1%Q
  | _ => value !! i
  end.

(** The ids selected so far are distinct and are no longer to process. *)
Definition distinct_ids (st : cover_state) : Prop :=
  NoDup (map fst (included_sets st))
  /\ forall p, p ∈ included_sets st -> fst p ∉ elem_to_process st.

(** The namespace values of a node, in the order of the loop. *)
Definition namespace_values (bpvs : list (string * string)) : list string :=
  map snd (filter (fun bpv => String.eqb (fst bpv) hasOBONamespace = true) bpvs).

Definition all_namespace_values (o : Ontology) (node_ids : list string) : list string :=
  concat (map (fun n => match basicPropertyValues (node o n) with
                        | Some bpvs => namespace_values bpvs
                        | None => []
                        end) node_ids).

(** The check as a scan over the namespace values. *)
Fixpoint scan_roots (vals : list string) (common_root : option string) : root_check :=
  match vals with
  | [] => RootIs common_root
  | val :: rest =>
      if truthy common_root && negb (bool_decide (common_root = Some val))
      then RootFalse
      else scan_roots rest (Some val)
  end.

(** Node [n] carries the namespace [v]. *)
Definition has_namespace (o : Ontology) (n v : string) : Prop :=
  exists bpvs, basicPropertyValues (node o n) = Some bpvs
               /\ (hasOBONamespace, v) ∈ bpvs.

(** The phrase [p] merged with itself. *)
Definition merged_twice (plural : string -> string) (p : string) : string :=
  if String.eqb p "" then ""
  else p +:+ " and "
       +:+ (if (length (split_space (strip p)) =? 1)%nat then plural p else p).




(** The candidates agree with the ontology: a candidate covers what the
    candidates below it cover. Without an ontology nothing is asked. *)
Definition consistent_with (onto : option Ontology) (subsets : list TrimmingCandidate)
  : Prop :=
  match onto with
  | Some o =>
      forall s s', s ∈ subsets -> s' ∈ subsets ->
        node_id s ∈ ancestors o (node_id s') ->
        covered_starting_nodes s' ⊆ covered_starting_nodes s
  | None => True
  end.

(** Every candidate has a weight: there is no weight list, or a parallel
    one. *)
Definition weights_parallel (subsets : list TrimmingCandidate) (value : list Q) : Prop :=
  value = [] \/ length value = length subsets.

(** What the loop keeps when the candidates agree with the ontology: the
    covered terms are those of the selected pairs, the pairs come from the
    candidates, and a candidate that was processed has its terms covered. *)
Definition covering_inv (subsets : list TrimmingCandidate) (st : cover_state) : Prop :=
  included_elmts st = covered_terms (included_sets st)
  /\ (forall p, p ∈ included_sets st ->
        exists s, s ∈ subsets /\ p = (node_id s, covered_starting_nodes s))
  /\ (forall s, s ∈ subsets -> node_id s ∉ elem_to_process st ->
        covered_starting_nodes s ⊆ included_elmts st).

(** The dictionary lists the input term [n] under the key [a]. *)
Definition listed_under (d : list (string * list string)) (a n : string) : Prop :=
  exists l, dict_get a d = Some l /\ n ∈ l.

(** The parents that [get_all_paths_to_root] follows from [node_id]. *)
Definition followed_parents (o : Ontology) (min_distance : Z) (root_node : option string)
  (node_id : string) : list string :=
  let parents0 :=
    filter (fun parent => (min_distance <=? depth (node o parent)) = true)
      (parents o node_id) in
  if truthy root_node then
    filter (fun parent =>
              truthy (node_root (node o parent))
              && bool_decide (node_root (node o parent) = root_node) = true)
      parents0
  else parents0.

(** A rank for [onto_two_paths]: the length of the longest way up. *)
Definition rank_two_paths (n : string) : nat :=
  if String.eqb n "m" then 3 else if String.eqb n "P" then 2
  else if String.eqb n "n" then 1 else if String.eqb n "Q" then 1 else 0.

(** The ancestors of the ontology form a strict order: no term is its own
    ancestor, and an ancestor of an ancestor is an ancestor. *)
Definition strict_ancestors (o : Ontology) : Prop :=
  (forall n, n ∉ ancestors o n)
  /\ (forall a b c, a ∈ ancestors o b -> b ∈ ancestors o c -> a ∈ ancestors o c).

(** The terms that [remove_parents_if_child_present] takes out: the
    ancestors of a term of the list that are not high priority. *)
Definition parent_of_a_term (onto : Ontology) (terms hp : list string) (t : string)
  : Prop :=
  exists n, n ∈ terms /\ t ∈ ancestors onto n /\ is_high_priority hp t = false.

(** The terms of the list below [t]. *)
Definition descendants_among (onto : Ontology) (terms : list string) (t : string)
  : gset string :=
  filter (fun n => t ∈ ancestors onto n) (list_to_set terms : gset string).

(** * Properties *)

(** ** The stable sort *)

Section SortedFacts.
Context {A : Type} (ltb : A -> A -> bool).
Hypothesis ltb_asym : forall a b, ltb a b = true -> ltb b a = false.
Hypothesis ltb_negtrans :
  forall a b c, ltb a b = false -> ltb b c = false -> ltb a c = false.

Lemma insert_sorted_perm x l : Permutation (insert_sorted ltb x l) (x :: l).
Proof.
  induction l as [|y l IH]; simpl; [reflexivity|].
  destruct (ltb y x); [|reflexivity].
  rewrite IH. apply perm_swap.
Qed.

Lemma sorted_perm l : Permutation (sorted ltb l) l.
Proof.
  induction l as [|x l IH]; simpl; [reflexivity|].
  rewrite insert_sorted_perm. by constructor.
Qed.

Lemma ltb_irrefl a : ltb a a = false.
Proof. destruct (ltb a a) eqn:E; [by apply ltb_asym in E as E'; congruence | done]. Qed.

Lemma insert_sorted_ordered x l : ordered ltb l -> ordered ltb (insert_sorted ltb x l).
Proof.
  unfold ordered. induction 1 as [|y l Hl IH Hy]; simpl.
  - repeat constructor.
  - destruct (ltb y x) eqn:E.
    + constructor; [done|].
      rewrite Forall_forall. intros z Hz.
      rewrite insert_sorted_perm in Hz.
      apply elem_of_cons in Hz as [->|Hz]; [by apply ltb_asym|].
      rewrite Forall_forall in Hy. by apply Hy.
    + constructor; [by constructor|].
      constructor; [done|].
      rewrite Forall_forall in Hy |- *. intros z Hz.
      eapply ltb_negtrans; [by apply Hy | done].
Qed.

Lemma sorted_ordered l : ordered ltb (sorted ltb l).
Proof.
  induction l as [|x l IH]; simpl; [constructor|].
  by apply insert_sorted_ordered.
Qed.

(** The head of the sorted list is a least element. *)
Lemma sorted_head_least l m x :
  head (sorted ltb l) = Some m -> x ∈ l -> ltb x m = false.
Proof.
  intros Hh Hx. pose proof (sorted_ordered l) as Ho.
  rewrite <- (sorted_perm l) in Hx.
  destruct (sorted ltb l) as [|y l']; simplify_eq/=.
  apply elem_of_cons in Hx as [->|Hx]; [apply ltb_irrefl|].
  inversion Ho as [|?? _ Hall]; subst.
  rewrite Forall_forall in Hall. by apply Hall.
Qed.

End SortedFacts.

(** ** Lists and sets *)

Lemma elem_of_map {A B : Type} (f : A -> B) (l : list A) (y : B) :
  y ∈ map f l <-> exists x, y = f x /\ x ∈ l.
Proof. change (map f l) with (f <$> l). apply list_elem_of_fmap. Qed.

Lemma lookup_map {A B : Type} (f : A -> B) (l : list A) (i : nat) :
  map f l !! i = f <$> (l !! i).
Proof. change (map f l) with (f <$> l). apply list_lookup_fmap. Qed.

Lemma elem_of_concat {A : Type} (ls : list (list A)) (x : A) :
  x ∈ concat ls <-> exists l, x ∈ l /\ l ∈ ls.
Proof.
  rewrite list_elem_of_In, in_concat. split.
  - intros (l & Hl & Hx). exists l. by rewrite !list_elem_of_In.
  - intros (l & Hx & Hl). exists l. by rewrite <- !list_elem_of_In.
Qed.

Lemma size_list_to_set_le (l : list string) :
  (size (list_to_set l : gset string) <= length l)%nat.
Proof.
  induction l as [|x l IH]; [by rewrite list_to_set_nil, size_empty|].
  rewrite list_to_set_cons, size_union_alt, size_singleton.
  assert ((list_to_set l ∖ {[x]} : gset string) ⊆ list_to_set l) as Hsub by set_solver.
  apply subseteq_size in Hsub. simpl. lia.
Qed.

Lemma size_list_to_set_dup (l : list string) :
  ~ NoDup l -> (size (list_to_set l : gset string) < length l)%nat.
Proof.
  induction l as [|x l IH]; intros Hd; [destruct Hd; constructor|].
  rewrite list_to_set_cons. destruct (decide (x ∈ l)) as [Hin|Hin].
  - replace ({[x]} ∪ list_to_set l : gset string) with (list_to_set l : gset string)
      by set_solver.
    pose proof (size_list_to_set_le l). simpl. lia.
  - assert (~ NoDup l) as Hl by (intros Hl; apply Hd; by constructor).
    specialize (IH Hl).
    rewrite size_union by set_solver. rewrite size_singleton. simpl. lia.
Qed.

(** ** Mutation of a list while it is iterated *)

Section RemoveWhileIterating.
Context {A : Type} `{EqDecision A} (cond : A -> bool).

Lemma remove_first_subset (e x : A) l : x ∈ remove_first e l -> x ∈ l.
Proof.
  induction l as [|y l IH]; simpl; [done|].
  destruct (decide (e = y)); [set_solver|].
  intros [->|Hx]%elem_of_cons; set_solver.
Qed.

Lemma remove_first_other (e x : A) l : x ∈ l -> x ≠ e -> x ∈ remove_first e l.
Proof.
  induction l as [|y l IH]; simpl; [done|].
  intros [->|Hx]%elem_of_cons Hne.
  - destruct (decide (e = y)); [congruence|set_solver].
  - destruct (decide (e = y)); [done|]. set_solver.
Qed.


Lemma remove_first_NoDup (e : A) l : NoDup l -> NoDup (remove_first e l).
Proof.
  induction 1 as [|y l Hy Hl IH]; simpl; [constructor|].
  destruct (decide (e = y)); [done|].
  constructor; [|done]. intros Hin. by apply remove_first_subset in Hin.
Qed.

Lemma remove_first_gone (e : A) l : NoDup l -> e ∉ remove_first e l.
Proof.
  induction 1 as [|y l Hy Hl IH]; simpl; [set_solver|].
  destruct (decide (e = y)) as [->|Hne]; [done|].
  intros [?|?]%elem_of_cons; [done|]. by apply IH.
Qed.

Lemma remove_while_iterating_subset fuel i l x :
  x ∈ remove_while_iterating cond fuel i l -> x ∈ l.
Proof.
  revert i l. induction fuel as [|fuel IH]; intros i l; simpl; [done|].
  destruct (l !! i) as [elem|]; [|done].
  destruct (cond elem); [|by apply IH].
  intros Hx%IH. by eapply remove_first_subset.
Qed.

(** Only elements that satisfy the condition are removed. *)
Lemma remove_while_iterating_kept fuel i l x :
  x ∈ l -> cond x = false -> x ∈ remove_while_iterating cond fuel i l.
Proof.
  revert i l. induction fuel as [|fuel IH]; intros i l Hx Hc; simpl; [done|].
  destruct (l !! i) as [elem|]; [|done].
  destruct (cond elem) eqn:He; [|by apply IH].
  apply IH; [|done]. apply remove_first_other; [done|congruence].
Qed.


(** The first element that satisfies the condition is removed. *)
Lemma remove_while_iterating_first fuel pre e post :
  NoDup (pre ++ e :: post) ->
  Forall (fun x => cond x = false) pre ->
  cond e = true ->
  (length pre < fuel)%nat ->
  e ∉ remove_while_iterating cond fuel 0 (pre ++ e :: post).
Proof.
  intros Hnd Hpre He Hfuel.
  assert (forall n fuel', (n <= length pre)%nat -> (n < fuel')%nat ->
            e ∉ remove_while_iterating cond fuel' (length pre - n) (pre ++ e :: post))
    as Hgen.
  { induction n as [|n IH]; intros fuel' Hn Hf.
    - rewrite Nat.sub_0_r. destruct fuel' as [|fuel']; [lia|]. simpl.
      rewrite list_lookup_middle by done. rewrite He.
      intros Hin%remove_while_iterating_subset.
      by apply remove_first_gone in Hin.
    - destruct fuel' as [|fuel']; [lia|]. simpl.
      destruct (lookup_lt_is_Some_2 pre (length pre - S n)) as [x Hx]; [lia|].
      rewrite lookup_app_l by lia. rewrite Hx.
      rewrite Forall_forall in Hpre.
      rewrite (Hpre x) by (by eapply list_elem_of_lookup_2).
      replace (S (length pre - S n)) with (length pre - n)%nat by lia.
      apply IH; lia. }
  specialize (Hgen (length pre) fuel). rewrite Nat.sub_diag in Hgen.
  by apply Hgen.
Qed.
End RemoveWhileIterating.

(** ** The order of the candidates *)

Lemma str_lt_cycle a b :
  String_as_OT.lt a b -> String_as_OT.lt b a -> False.
Proof.
  intros Hab Hba.
  apply (@StrictOrder_Irreflexive _ _ String_as_OT.lt_strorder a).
  by apply (@StrictOrder_Transitive _ _ String_as_OT.lt_strorder a b a).
Qed.

Lemma str_ltb_asym a b : str_ltb a b = true -> str_ltb b a = false.
Proof.
  unfold str_ltb. intros Hab.
  destruct (String_as_OT.compare_spec a b) as [|Hlt|]; try done.
  destruct (String_as_OT.compare_spec b a) as [|Hlt'|]; try done.
  exfalso. by eapply str_lt_cycle.
Qed.

Lemma str_ltb_negtrans a b c :
  str_ltb a b = false -> str_ltb b c = false -> str_ltb a c = false.
Proof.
  unfold str_ltb. intros Hab Hbc.
  destruct (String_as_OT.compare_spec a b) as [->|?|Hba]; try done;
    destruct (String_as_OT.compare_spec b c) as [->|?|Hcb]; try done;
    destruct (String_as_OT.compare_spec a c) as [?|Hac|?]; try done; exfalso.
  - by eapply str_lt_cycle.
  - eapply (str_lt_cycle a c); [done|].
    by apply (@StrictOrder_Transitive _ _ String_as_OT.lt_strorder c b a).
Qed.

Lemma Qlt_bool_iff x y : Qlt_bool x y = true <-> (x < y)%Q.
Proof.
  unfold Qlt_bool. rewrite negb_true_iff.
  destruct (Qle_bool y x) eqn:E.
  - apply Qle_bool_iff in E. split; [done|]. intros Hlt. exfalso. lra.
  - split; [|done]. intros _. apply Qnot_le_lt. intros Hle.
    apply Qle_bool_iff in Hle. congruence.
Qed.

Lemma effect_ltb_iff a b :
  effect_ltb a b = true <->
  (eff_score b < eff_score a)%Q
  \/ (eff_score a == eff_score b /\ str_ltb (eff_label a) (eff_label b) = true).
Proof.
  unfold effect_ltb. rewrite orb_true_iff, andb_true_iff, Qlt_bool_iff, Qeq_bool_iff.
  split; (intros [H|[H1 H2]]; [left; lra | right; split; [lra|done]]).
Qed.

Lemma effect_ltb_false_iff a b :
  effect_ltb a b = false <->
  (eff_score a <= eff_score b)%Q
  /\ (eff_score a == eff_score b -> str_ltb (eff_label a) (eff_label b) = false).
Proof.
  rewrite <- not_true_iff_false, effect_ltb_iff. split.
  - intros Hn. split.
    + apply Qnot_lt_le. intros Hlt. apply Hn. by left.
    + intros Heq. apply not_true_iff_false. intros Hl. apply Hn. by right.
  - intros [Hle Htie] [Hlt|[Heq Hl]]; [lra|].
    rewrite Htie in Hl; done.
Qed.

Lemma effect_ltb_asym a b : effect_ltb a b = true -> effect_ltb b a = false.
Proof.
  rewrite effect_ltb_iff, effect_ltb_false_iff.
  intros [Hlt|[Heq Hl]]; (split; [lra|]); intros Heq'; [lra|].
  by apply str_ltb_asym.
Qed.

Lemma effect_ltb_negtrans a b c :
  effect_ltb a b = false -> effect_ltb b c = false -> effect_ltb a c = false.
Proof.
  rewrite !effect_ltb_false_iff. intros [H1 T1] [H2 T2]. split; [lra|].
  intros Heq. eapply str_ltb_negtrans; [apply T1|apply T2]; lra.
Qed.

(** ** The set-covering solver *)

Lemma weighted_subsets_lookup subsets value i s v :
  weighted_subsets subsets value !! i = Some (s, v) <->
  subsets !! i = Some s /\ weight_at value i = Some v.
Proof.
  unfold weighted_subsets, weight_at. destruct value as [|v0 value].
  - rewrite lookup_map. destruct (subsets !! i); simpl; naive_solver.
  - rewrite lookup_zip_with.
    destruct (subsets !! i); simpl; [|naive_solver].
    destruct ((v0 :: value) !! i); simpl; naive_solver.
Qed.

Lemma elem_of_remaining subsets value etp s v :
  (s, v) ∈ remaining subsets value etp <->
  node_id s ∈ etp /\ exists i, subsets !! i = Some s /\ weight_at value i = Some v.
Proof.
  unfold remaining. rewrite list_elem_of_filter, list_elem_of_lookup. simpl.
  by setoid_rewrite weighted_subsets_lookup.
Qed.

(** What [select] returns is one of the remaining candidates, and none of
    them comes before it in the order of the keys. *)
Lemma select_spec subsets value st best :
  select subsets value st = Some best ->
  (exists s v, (s, v) ∈ remaining subsets value (elem_to_process st)
               /\ best = effect_of (included_elmts st) (s, v))
  /\ forall sv, sv ∈ remaining subsets value (elem_to_process st) ->
                effect_ltb (effect_of (included_elmts st) sv) best = false.
Proof.
  unfold select, effect_sets. intros Hh. split.
  - apply head_Some_elem_of in Hh. rewrite sorted_perm in Hh.
    apply elem_of_map in Hh as [[s v] [-> Hin]]. eauto.
  - intros sv Hsv.
    eapply (sorted_head_least effect_ltb effect_ltb_asym effect_ltb_negtrans); [done|].
    apply elem_of_map. eauto.
Qed.

Lemma select_is_Some subsets value st sv :
  sv ∈ remaining subsets value (elem_to_process st) ->
  is_Some (select subsets value st).
Proof.
  unfold select, effect_sets. intros Hsv.
  destruct (sorted effect_ltb _) as [|e l] eqn:E; [|by eexists].
  assert (effect_of (included_elmts st) sv ∈ @nil effect) as Hnil; [|by inversion Hnil].
  rewrite <- E, sorted_perm. apply elem_of_map. eauto.
Qed.

Lemma cover_step_inv onto subsets value st st' :
  cover_step onto subsets value st = Ok st' ->
  exists best kept,
    select subsets value st = Some best
    /\ kept = match onto with
              | Some o => drop_superseded o (eff_id best) (included_sets st)
              | None => included_sets st
              end
    /\ st' = mk_cover_state (elem_to_process st ∖ {[eff_id best]})
               (included_elmts st ∪ eff_covered best)
               (kept ++ [(eff_id best, eff_covered best)]).
Proof.
  unfold cover_step. destruct (select subsets value st) as [best|]; [|done].
  intros [= <-]. eauto.
Qed.

(** An invariant of the loop that holds before it holds after it. *)
Lemma cover_loop_invariant (P : cover_state -> Prop) onto subsets value universe cap :
  (forall st st', P st -> cover_guard universe cap st = true ->
                  cover_step onto subsets value st = Ok st' -> P st') ->
  forall fuel st st',
    P st -> cover_loop fuel onto subsets value universe cap st = Ok st' -> P st'.
Proof.
  intros Hstep. induction fuel as [|fuel IH]; intros st st' HP; simpl.
  - by intros [= <-].
  - destruct (cover_guard universe cap st) eqn:Hg; [|by intros [= <-]].
    destruct (cover_step onto subsets value st) as [st1|e] eqn:Hs; [|done].
    simpl. apply IH. by eapply Hstep.
Qed.


Lemma find_set_covering_inv onto subsets value cap sel :
  find_set_covering onto subsets value cap = Ok (Some sel) ->
  exists st,
    cover_loop (size (subset_ids subsets)) onto subsets value (universe_of subsets) cap
      (mk_cover_state (subset_ids subsets) ∅ []) = Ok st
    /\ sel = included_sets st.
Proof.
  unfold find_set_covering.
  destruct (negb (bool_decide (value = [])) && _); [done|].
  destruct (cover_loop _ _ _ _ _ _ _) as [st|e]; [|done].
  intros [= <-]. eauto.
Qed.


(** Every selected pair is the id and the covered set of a candidate. *)
Lemma find_set_covering_from_subsets onto subsets value cap sel p :
  find_set_covering onto subsets value cap = Ok (Some sel) ->
  p ∈ sel ->
  exists s, s ∈ subsets /\ p = (node_id s, covered_starting_nodes s).
Proof.
  intros (st & Hloop & ->)%find_set_covering_inv. revert p. revert Hloop.
  apply (cover_loop_invariant
           (fun st => forall p, p ∈ included_sets st ->
              exists s, s ∈ subsets /\ p = (node_id s, covered_starting_nodes s)));
    [|by simpl; set_solver].
  clear st. intros st st' IH _ (best & kept & Hsel & -> & ->)%cover_step_inv p. simpl.
  intros [Hp|Hp%list_elem_of_singleton]%elem_of_app.
  - apply IH. destruct onto; [|done].
    by eapply remove_while_iterating_subset.
  - subst p. apply select_spec in Hsel as [(s & v & Hin & ->) _].
    apply elem_of_remaining in Hin as (_ & i & Hi & _).
    exists s. split; [by eapply list_elem_of_lookup_2|done].
Qed.

(** *** The loop of the solver runs to its end *)

Lemma cover_step_shrinks onto subsets value st st' :
  cover_step onto subsets value st = Ok st' ->
  S (size (elem_to_process st')) = size (elem_to_process st).
Proof.
  intros (best & kept & Hsel & _ & ->)%cover_step_inv.
  apply select_spec in Hsel as [(s & v & Hin & ->) _].
  apply elem_of_remaining in Hin as [Hetp _].
  cbn [elem_to_process effect_of eff_id fst].
  assert (({[node_id s]} : gset string) ⊆ elem_to_process st) as Hsub by set_solver.
  rewrite (size_difference _ _ Hsub), size_singleton.
  apply subseteq_size in Hsub. rewrite size_singleton in Hsub. lia.
Qed.

(** With [size elem_to_process] iterations allowed the loop stops because
    its condition is false. *)
Lemma cover_loop_finished onto subsets value universe cap fuel st st' :
  (size (elem_to_process st) <= fuel)%nat ->
  cover_loop fuel onto subsets value universe cap st = Ok st' ->
  cover_guard universe cap st' = false.
Proof.
  revert st. induction fuel as [|fuel IH]; intros st Hsize; simpl.
  - intros [= <-]. unfold cover_guard.
    assert (size (elem_to_process st) = 0%nat) as -> by lia. done.
  - destruct (cover_guard universe cap st) eqn:Hg; [|by intros [= <-]].
    destruct (cover_step onto subsets value st) as [st1|e] eqn:Hs; [|done].
    simpl. apply IH. apply cover_step_shrinks in Hs. lia.
Qed.

(** *** The selected ids are distinct *)

Lemma remove_first_sublist {A : Type} `{EqDecision A} (e : A) (l : list A) :
  remove_first e l `sublist_of` l.
Proof.
  induction l as [|y l IH]; simpl; [done|].
  destruct (decide (e = y)); [by apply sublist_cons|by apply sublist_skip].
Qed.

Lemma remove_while_iterating_sublist {A : Type} `{EqDecision A} (cond : A -> bool)
  (fuel i : nat) (l : list A) :
  remove_while_iterating cond fuel i l `sublist_of` l.
Proof.
  revert i l. induction fuel as [|fuel IH]; intros i l; simpl; [done|].
  destruct (l !! i) as [elem|]; [|done].
  destruct (cond elem); [|by apply IH].
  etrans; [apply IH|]. apply remove_first_sublist.
Qed.

Lemma map_sublist {A B : Type} (f : A -> B) (l1 l2 : list A) :
  l1 `sublist_of` l2 -> map f l1 `sublist_of` map f l2.
Proof.
  change (map f l1) with (f <$> l1). change (map f l2) with (f <$> l2).
  apply fmap_sublist.
Qed.

Lemma cover_step_distinct onto subsets value st st' :
  distinct_ids st -> cover_step onto subsets value st = Ok st' -> distinct_ids st'.
Proof.
  intros [Hnd Hout] (best & kept & Hsel & Hkept & ->)%cover_step_inv.
  assert (kept `sublist_of` included_sets st) as Hsub.
  { subst kept. destruct onto; [apply remove_while_iterating_sublist|done]. }
  apply select_spec in Hsel as [(s & v & Hin & ->) _].
  apply elem_of_remaining in Hin as [Hetp _].
  split; cbn [included_sets elem_to_process effect_of eff_id eff_covered fst].
  - rewrite map_app. apply NoDup_app. split_and!.
    + eauto using sublist_NoDup, map_sublist.
    + intros x (p & -> & Hp)%elem_of_map Hx%list_elem_of_singleton.
      apply (Hout p); [by eapply elem_of_sublist|]. simpl in Hx. by rewrite Hx.
    + apply NoDup_singleton.
  - intros p [Hp|Hp%list_elem_of_singleton]%elem_of_app.
    + assert (fst p ∉ elem_to_process st) by (apply Hout; by eapply elem_of_sublist).
      set_solver.
    + subst p. set_solver.
Qed.

(** The solver returns each id at most once; in particular every state of
    its loop has a duplicate-free [included_sets]. *)
Lemma find_set_covering_NoDup onto subsets value cap sel :
  find_set_covering onto subsets value cap = Ok (Some sel) -> NoDup (map fst sel).
Proof.
  intros (st & Hloop & ->)%find_set_covering_inv.
  assert (distinct_ids st) as [Hnd _]; [|done]. revert Hloop.
  apply (cover_loop_invariant distinct_ids).
  - intros st1 st2 Hd _ Hs. by eapply cover_step_distinct.
  - split; simpl; [constructor|]. intros p Hp. by inversion Hp.
Qed.

Lemma distinct_ids_NoDup st : distinct_ids st -> NoDup (included_sets st).
Proof.
  intros [Hnd _]. change (NoDup (fst <$> included_sets st)) in Hnd.
  by apply NoDup_fmap_1 in Hnd.
Qed.

(** C10: with a non-empty weight list whose length is not the number of
    distinct candidate ids the solver returns [None]; in particular a weight
    list parallel to a list of candidates with a repeated id gives [None]. *)
Theorem find_set_covering_weight_mismatch onto subsets value cap :
  value <> [] ->
  (length value <> size (subset_ids subsets) ->
   find_set_covering onto subsets value cap = Ok None)
  /\ (length value = length subsets -> ~ NoDup (map node_id subsets) ->
      find_set_covering onto subsets value cap = Ok None).
Proof.
  intros Hv.
  assert (length value <> size (subset_ids subsets) ->
          find_set_covering onto subsets value cap = Ok None) as Hmis.
  { intros Hlen. unfold find_set_covering.
    rewrite bool_decide_eq_false_2 by done.
    apply Nat.eqb_neq in Hlen. by rewrite Hlen. }
  split; [done|].
  intros Hlen Hdup. apply Hmis.
  apply size_list_to_set_dup in Hdup. rewrite length_map in Hdup.
  unfold subset_ids. lia.
Qed.

Lemma find_set_covering_weight_mismatch_witness :
  find_set_covering (Some onto_AB)
    [mk_candidate "A" "A" {["a"]}; mk_candidate "A" "A" {["a"]};
     mk_candidate "B" "B" {["b"]}]
    [1%Q; 1%Q; 1%Q] None = Ok None.
Proof.
  apply (find_set_covering_weight_mismatch (Some onto_AB)
           [mk_candidate "A" "A" {["a"]}; mk_candidate "A" "A" {["a"]};
            mk_candidate "B" "B" {["b"]}]
           [1%Q; 1%Q; 1%Q] None).
  - discriminate.
  - reflexivity.
  - apply (bool_decide_eq_false_1
             (NoDup (map node_id
                       [mk_candidate "A" "A" {["a"]}; mk_candidate "A" "A" {["a"]};
                        mk_candidate "B" "B" {["b"]}]))).
    vm_compute. reflexivity.
Defined.



(** C3, as stated, fails: the solver selects [A] and then its child [B], and
    the strict ancestor [A] of the newly selected [B] stays in the result. *)
Lemma find_set_covering_keeps_ancestor :
  find_set_covering (Some onto_AB)
    [mk_candidate "A" "A" {["a"]}; mk_candidate "B" "B" {["b"]}] [] None
  = Ok (Some [("A", {["a"]}); ("B", {["b"]})])
  /\ "A" ∈ ancestors onto_AB "B"
  /\ "A" <> "B".
Proof. split; [by vm_compute|]. split; [|done]. simpl. set_solver. Qed.

(** C3, amended: after a selection the result is the kept part of the earlier
    selections followed by the new candidate; an earlier selection is removed
    only when the new candidate is one of its strict ancestors, and the first
    earlier selection of which it is an ancestor is removed. *)
Theorem cover_step_supersedes o subsets value st st' :
  NoDup (included_sets st) ->
  cover_step (Some o) subsets value st = Ok st' ->
  exists best kept,
    select subsets value st = Some best
    /\ included_sets st' = kept ++ [(eff_id best, eff_covered best)]
    /\ (forall elem, elem ∈ kept -> elem ∈ included_sets st)
    /\ (forall elem, elem ∈ included_sets st -> elem ∉ kept ->
          eff_id best ∈ ancestors o (fst elem))
    /\ (forall pre elem post,
          included_sets st = pre ++ elem :: post ->
          Forall (fun x => eff_id best ∉ ancestors o (fst x)) pre ->
          eff_id best ∈ ancestors o (fst elem) ->
          elem ∉ kept).
Proof.
  intros Hnd (best & kept & Hsel & -> & ->)%cover_step_inv.
  exists best, (drop_superseded o (eff_id best) (included_sets st)).
  simpl. split_and!; try done.
  - intros elem. apply remove_while_iterating_subset.
  - intros elem Hin Hout.
    destruct (superseded_by o (eff_id best) elem) eqn:Hc.
    + unfold superseded_by in Hc. by apply bool_decide_eq_true in Hc.
    + exfalso. apply Hout. by apply remove_while_iterating_kept.
  - intros pre elem post Heq Hpre Helem. unfold drop_superseded. rewrite Heq in Hnd |- *.
    apply remove_while_iterating_first; try done.
    + eapply Forall_impl; [done|]. intros x Hx. simpl in Hx.
      unfold superseded_by. by apply bool_decide_eq_false.
    + unfold superseded_by. by apply bool_decide_eq_true.
    + rewrite length_app. simpl. lia.
Qed.

Lemma cover_step_supersedes_witness :
  exists st' best kept,
    cover_step (Some onto_AB)
      [mk_candidate "A" "A" {["a"]}; mk_candidate "B" "B" {["b"]}] []
      (mk_cover_state {["A"]} {["b"]} [("B", {["b"]})]) = Ok st'
    /\ included_sets st' = kept ++ [(eff_id best, eff_covered best)]
    /\ forall elem, elem ∈ kept -> elem ∈ [("B", ({["b"]} : gset string))].
Proof.
  destruct (cover_step (Some onto_AB)
              [mk_candidate "A" "A" {["a"]}; mk_candidate "B" "B" {["b"]}] []
              (mk_cover_state {["A"]} {["b"]} [("B", {["b"]})])) as [st'|e] eqn:Hstep;
    [|vm_compute in Hstep; discriminate].
  assert (NoDup [("B", ({["b"]} : gset string))]) as Hnd.
  { apply (bool_decide_unpack (NoDup [("B", ({["b"]} : gset string))])).
    vm_compute. exact I. }
  destruct (cover_step_supersedes onto_AB
              [mk_candidate "A" "A" {["a"]}; mk_candidate "B" "B" {["b"]}] []
              (mk_cover_state {["A"]} {["b"]} [("B", {["b"]})]) st' Hnd Hstep)
    as (best & kept & _ & Hsets & Hsub & _).
  exists st', best, kept. split; [reflexivity|]. split; assumption.
Defined.

(** ** Results of the [py] monad *)

Lemma py_bind_Ok {A B : Type} (m : py A) (k : A -> py B) (b : B) :
  (x ← m; k x) = Ok b -> exists a, m = Ok a /\ k a = Ok b.
Proof. destruct m as [a|e]; [|done]. intros Hk. by exists a. Qed.

Lemma py_bind_Raise {A B : Type} (m : py A) (k : A -> py B) (e : exn) :
  m = Raise e -> (x ← m; k x) = Raise e.
Proof. by intros ->. Qed.

Lemma report_inv node_ids best flag sel :
  report node_ids best = Ok (flag, sel) ->
  best = Some sel
  /\ flag = negb (bool_decide (covered_terms sel = list_to_set node_ids)).
Proof. unfold report. destruct best; [|done]. by intros [= <- <-]. Qed.

(** ** The root check *)

Lemma same_root_props_scan bpvs cr :
  same_root_props bpvs cr = scan_roots (namespace_values bpvs) cr.
Proof.
  revert cr. induction bpvs as [|[pred val] bpvs IH]; intros cr; [done|].
  unfold namespace_values. rewrite filter_cons. cbn [same_root_props].
  destruct (String.eqb pred hasOBONamespace) eqn:E.
  - rewrite decide_True by exact E. cbn [map snd scan_roots].
    destruct (truthy cr && _); [done|]. apply IH.
  - rewrite decide_False by (intros E'; cbn [fst] in E'; congruence). apply IH.
Qed.

Lemma scan_roots_app l1 l2 cr :
  scan_roots (l1 ++ l2) cr =
  match scan_roots l1 cr with
  | RootFalse => RootFalse
  | RootIs r => scan_roots l2 r
  end.
Proof.
  revert cr. induction l1 as [|v l1 IH]; intros cr; simpl; [done|].
  destruct (truthy cr && _); [done|]. apply IH.
Qed.

Lemma same_root_nodes_scan o node_ids cr :
  same_root_nodes o node_ids cr = scan_roots (all_namespace_values o node_ids) cr.
Proof.
  revert cr. induction node_ids as [|n ids IH]; intros cr; [done|].
  unfold all_namespace_values. simpl. rewrite scan_roots_app.
  destruct (basicPropertyValues (node o n)) as [bpvs|]; simpl; [|apply IH].
  rewrite same_root_props_scan.
  destruct (scan_roots (namespace_values bpvs) cr); [done|]. apply IH.
Qed.

Lemma scan_roots_differs vals r v :
  r <> "" -> v ∈ vals -> v <> r -> scan_roots vals (Some r) = RootFalse.
Proof.
  intros Hr. induction vals as [|v0 vals IH]; intros Hv Hne; [by inversion Hv|].
  simpl. destruct (String.eqb_spec r ""); [done|]. simpl.
  destruct (decide (r = v0)) as [->|Hrv].
  - rewrite bool_decide_eq_true_2 by done. simpl.
    apply elem_of_cons in Hv as [->|Hv]; [done|]. by apply IH.
  - rewrite bool_decide_eq_false_2 by congruence. done.
Qed.

Lemma scan_roots_two_values vals cr v1 v2 :
  v1 ∈ vals -> v2 ∈ vals -> v1 <> v2 -> v1 <> "" -> v2 <> "" ->
  scan_roots vals cr = RootFalse.
Proof.
  intros H1 H2 Hne Hn1 Hn2. revert cr H1 H2.
  induction vals as [|v0 vals IH]; intros cr H1 H2; [by inversion H1|].
  simpl. destruct (truthy cr && _); [done|].
  destruct (decide (v0 = "")) as [->|Hv0].
  - apply elem_of_cons in H1 as [?|H1]; [done|].
    apply elem_of_cons in H2 as [?|H2]; [done|].
    by apply IH.
  - destruct (decide (v1 = v0)) as [->|Hv1].
    + apply elem_of_cons in H2 as [?|H2]; [done|].
      by apply (scan_roots_differs vals v0 v2).
    + apply elem_of_cons in H1 as [?|H1]; [done|].
      by apply (scan_roots_differs vals v0 v1).
Qed.

Lemma has_namespace_value o node_ids n v :
  n ∈ node_ids -> has_namespace o n v -> v ∈ all_namespace_values o node_ids.
Proof.
  intros Hn (bpvs & Hb & Hv). unfold all_namespace_values.
  apply elem_of_concat. exists (namespace_values bpvs). split.
  - unfold namespace_values. apply elem_of_map. exists (hasOBONamespace, v).
    split; [done|]. apply list_elem_of_filter. split; [|done].
    reflexivity.
  - apply elem_of_map. exists n. by rewrite Hb.
Qed.

Lemma mixed_roots_rejected o blacklist node_ids min_d n1 n2 v1 v2 :
  n1 ∈ node_ids -> n2 ∈ node_ids ->
  has_namespace o n1 v1 -> has_namespace o n2 v2 ->
  v1 <> v2 -> v1 <> "" -> v2 <> "" ->
  get_all_trimming_candidates o blacklist node_ids min_d = Raise ValueError.
Proof.
  intros Hn1 Hn2 Hv1 Hv2 Hne He1 He2.
  unfold get_all_trimming_candidates, nodes_have_same_root.
  rewrite same_root_nodes_scan.
  rewrite (scan_roots_two_values (all_namespace_values o node_ids) None v1 v2);
    eauto using has_namespace_value.
Qed.

(** C2, as stated, fails: the naive algorithm makes no root check and trims a
    term of [biological_process] together with one of [cellular_component]. *)
Lemma trim_Naive_accepts_mixed_roots :
  has_namespace onto_two_roots "a" "biological_process"
  /\ has_namespace onto_two_roots "b" "cellular_component"
  /\ trim_Naive 5 (fun _ => 0%nat) (mk_trimming onto_two_roots 3 []) ["a"; "b"] 3
     = Ok (false, [("a", {["a"]}); ("b", {["b"]})]).
Proof.
  split; [|split].
  - eexists. split; [reflexivity|]. simpl. set_solver.
  - eexists. split; [reflexivity|]. simpl. set_solver.
  - by vm_compute.
Qed.

(** C2, amended: when two of the input terms carry two distinct, non-empty
    namespaces, the IC and the LCA algorithm raise [ValueError]. *)
Theorem trim_rejects_mixed_roots (self_ic : TrimmingAlgorithmIC)
  (self_lca : TrimmingAlgorithm) (pick : gset string -> nat)
  (node_ids : list string) (max_num_nodes : Z) (n1 n2 v1 v2 : string) :
  n1 ∈ node_ids -> n2 ∈ node_ids ->
  v1 <> v2 -> v1 <> "" -> v2 <> "" ->
  (has_namespace (ontology self_ic) n1 v1 -> has_namespace (ontology self_ic) n2 v2 ->
   trim_IC self_ic node_ids max_num_nodes = Raise ValueError)
  /\ (has_namespace (ontology self_lca) n1 v1 ->
      has_namespace (ontology self_lca) n2 v2 ->
      trim_LCA pick self_lca node_ids max_num_nodes = Raise ValueError).
Proof.
  intros Hn1 Hn2 Hne He1 He2. split; intros Hv1 Hv2.
  - unfold trim_IC. apply py_bind_Raise.
    by apply (mixed_roots_rejected _ _ _ _ n1 n2 v1 v2).
  - unfold trim_LCA. apply py_bind_Raise.
    by apply (mixed_roots_rejected _ _ _ _ n1 n2 v1 v2).
Qed.

Lemma trim_rejects_mixed_roots_witness :
  trim_IC (mk_trimming_ic (mk_trimming onto_two_roots 3 []) 0 ∅) ["a"; "b"] 3
  = Raise ValueError
  /\ trim_LCA (fun _ => 0%nat) (mk_trimming onto_two_roots 3 []) ["a"; "b"] 3
     = Raise ValueError.
Proof.
  assert (has_namespace onto_two_roots "a" "biological_process") as Ha
    by (eexists; split; [reflexivity | simpl; left]).
  assert (has_namespace onto_two_roots "b" "cellular_component") as Hb
    by (eexists; split; [reflexivity | simpl; left]).
  destruct (trim_rejects_mixed_roots
              (mk_trimming_ic (mk_trimming onto_two_roots 3 []) 0 ∅)
              (mk_trimming onto_two_roots 3 []) (fun _ => 0%nat) ["a"; "b"] 3
              "a" "b" "biological_process" "cellular_component")
    as [Hic Hlca].
  - left.
  - right. left.
  - discriminate.
  - discriminate.
  - discriminate.
  - split; [exact (Hic Ha Hb) | exact (Hlca Ha Hb)].
Defined.

(** ** The cap *)

Lemma trim_IC_inv self node_ids cap flag sel :
  trim_IC self node_ids cap = Ok (flag, sel) ->
  exists cands,
    get_all_trimming_candidates (ontology self) (nodeids_blacklist self) node_ids 0
    = Ok cands
    /\ find_set_covering (Some (ontology self))
         (map fst (filter (fun cv => Qlt_bool 0 (snd cv) = true)
                     (zip cands (map (fun c => get_candidate_ic_value self c node_ids)
                                   cands))))
         (filter (fun v => Qlt_bool 0 v = true)
            (map (fun c => get_candidate_ic_value self c node_ids) cands))
         (Some cap) = Ok (Some sel)
    /\ flag = negb (bool_decide (covered_terms sel = list_to_set node_ids)).
Proof.
  unfold trim_IC. intros (cands & Hc & (best & Hb & [-> ->]%report_inv)%py_bind_Ok)%py_bind_Ok.
  eauto.
Qed.

Lemma lca_items_spec candidates_dict ids items :
  lca_items candidates_dict ids = Ok items ->
  length items = length ids
  /\ forall p, p ∈ items ->
       exists lab, dict_get (fst p) candidates_dict = Some (lab, snd p).
Proof.
  revert items. induction ids as [|k ids IH]; intros items; simpl.
  - intros [= <-]. split; [done|]. intros p Hp. by inversion Hp.
  - intros (it & Hit & (its & Hits & [= <-])%py_bind_Ok)%py_bind_Ok.
    destruct (IH its Hits) as [Hlen Hall]. split; [simpl; lia|].
    intros p [->|Hp]%elem_of_cons; [|by apply Hall].
    unfold dict_item in Hit. simpl.
    destruct (dict_get k candidates_dict) as [[lab cov]|]; [|done].
    injection Hit as <-. by exists lab.
Qed.

(** The two ways in which the LCA algorithm returns. *)
Lemma trim_LCA_inv pick self node_ids cap flag sel :
  trim_LCA pick self node_ids cap = Ok (flag, sel) ->
  exists cands selected items,
    get_all_trimming_candidates (ontology self) (nodeids_blacklist self) node_ids
      (min_distance_from_root self) = Ok cands
    /\ lca_selected pick self (lca_candidates_dict cands) = Ok selected
    /\ lca_items (lca_candidates_dict cands) selected = Ok items
    /\ ((Z.of_nat (length selected) <= cap /\ flag = false /\ sel = items)
        \/ (cap < Z.of_nat (length selected)
            /\ find_set_covering (Some (ontology self))
                 (map (fun it => mk_candidate (fst it) (label (ontology self) (fst it))
                                   (snd it)) items)
                 [] (Some cap) = Ok (Some sel)
            /\ flag = negb (bool_decide (covered_terms sel = list_to_set node_ids)))).
Proof.
  unfold trim_LCA.
  intros (cands & Hc & (selected & Hs & (items & Hi & Hr)%py_bind_Ok)%py_bind_Ok)%py_bind_Ok.
  exists cands, selected, items. split_and!; try done.
  destruct (Z.of_nat (length selected) <=? cap) eqn:E.
  - left. apply Z.leb_le in E. by injection Hr as <- <-.
  - right. apply Z.leb_gt in E.
    apply py_bind_Ok in Hr as (best & Hb & [-> ->]%report_inv). done.
Qed.








(** ** High-priority terms *)




(** ** Merging postfix phrases *)

(** C8, as stated, fails: the three phrases have no common suffix, the
    pluraliser gets the empty string, and no [s] follows [Z]. *)
Lemma merge_postfix_located_no_plural :
  merge_postfix_phrases plural_s
    ["located in the X"; "located in the Y"; "located in the Z"]
  = "located in the X, Y, and Z"
  /\ merge_postfix_phrases plural_s
       ["located in the X"; "located in the Y"; "located in the Z"]
     <> "located in the X, Y, and Zs".
Proof. split; [reflexivity | discriminate]. Qed.

(** C8, amended: for the three phrases the common prefix is
    [located in the ], the common suffix is empty, the fragments are [X], [Y]
    and [Z], and the result is [located in the X, Y, and Z] followed by the
    plural of the empty suffix. *)
Theorem merge_postfix_located (plural : string -> string) :
  let phrases := ["located in the X"; "located in the Y"; "located in the Z"] in
  shortest_phrase phrases = Some "located in the X"
  /\ common_first phrases "located in the X" 16 0 "" = "located in the "
  /\ common_last phrases "located in the X" 16 0 "" = ""
  /\ merge_postfix_phrases plural phrases
     = "located in the X, Y, and Z" +:+ plural "".
Proof. repeat split. Qed.

(** ** Merging a phrase with itself *)
















(** ** Merging a sentence with itself *)

Lemma merged_twice_nil (plural : string -> string) : merged_twice plural "" = "".
Proof. reflexivity. Qed.







(** ** Iteration over sets *)

Section SetOrderFacts.
Context {A : Type} `{Countable A}.

Lemma set_pop_Some (pick : gset A -> nat) (s : gset A) (x : A) (s' : gset A) :
  set_pop pick s = Some (x, s') -> x ∈ s /\ s' = s ∖ {[x]}.
Proof.
  unfold set_pop. destruct (elements s) as [|x0 l] eqn:E; [done|].
  set (k := (pick s mod length (x0 :: l))%nat).
  assert (k < length (x0 :: l))%nat as Hk by (apply Nat.mod_upper_bound; simpl; lia).
  clearbody k. intros Heq. injection Heq as <- <-. split; [|done].
  apply elem_of_elements. rewrite E. apply list_elem_of_In.
  exact (nth_In (x0 :: l) x0 Hk).
Qed.

Lemma set_pop_None (pick : gset A -> nat) (s : gset A) :
  set_pop pick s = None -> s = ∅.
Proof.
  unfold set_pop. destruct (elements s) as [|x0 l] eqn:E; [|done].
  intros _. by apply elements_empty_inv, leibniz_equiv in E.
Qed.

Lemma set_iter_from_elem (pick : gset A -> nat) (fuel : nat) (s : gset A) (x : A) :
  (size s <= fuel)%nat -> x ∈ set_iter_from fuel pick s <-> x ∈ s.
Proof.
  revert s. induction fuel as [|fuel IH]; intros s Hsize; simpl.
  - assert (s = ∅) as -> by (apply leibniz_equiv, size_empty_inv; lia).
    set_solver.
  - destruct (set_pop pick s) as [[y s']|] eqn:E.
    + apply set_pop_Some in E as [Hy ->].
      assert (size (s ∖ {[y]}) <= fuel)%nat as Hs'.
      { assert (size s = size ({[y]} : gset A) + size (s ∖ {[y]}))%nat as Hsz.
        { rewrite <- size_union by set_solver. f_equal.
          apply leibniz_equiv. apply union_difference. set_solver. }
        rewrite size_singleton in Hsz. lia. }
      rewrite elem_of_cons, (IH _ Hs'). split.
      * intros [->|?]; set_solver.
      * intros Hx. destruct (decide (x = y)); [by left|right; set_solver].
    + apply set_pop_None in E as ->. set_solver.
Qed.

Lemma set_iter_elem (pick : gset A -> nat) (s : gset A) (x : A) :
  x ∈ set_iter pick s <-> x ∈ s.
Proof. by apply set_iter_from_elem. Qed.
End SetOrderFacts.


(** ** The naive algorithm: which path is taken *)




(** ** Coverage *)

Lemma fold_left_invariant {A B : Type} (P : A -> Prop) (f : A -> B -> A)
  (l : list B) (init : A) :
  (forall acc x, x ∈ l -> P acc -> P (f acc x)) -> P init -> P (fold_left f l init).
Proof.
  revert init. induction l as [|x l IH]; intros init Hstep Hinit; simpl; [done|].
  apply IH.
  - intros acc y Hy. apply Hstep. by right.
  - apply Hstep; [by left|done].
Qed.

Lemma dict_append_elem {X : Type} (k : string) (x : X) (d : list (string * list X))
  (k' : string) (l' : list X) :
  (k', l') ∈ dict_append k x d ->
  (k', l') ∈ d \/ (k' = k /\ exists l0, l' = l0 ++ [x] /\ (l0 = [] \/ (k, l0) ∈ d)).
Proof.
  induction d as [|[k0 l0] d IH]; simpl.
  - intros [= -> ->]%list_elem_of_singleton. right. split; [done|].
    exists []. split; [done|by left].
  - destruct (String.eqb_spec k k0) as [->|Hne].
    + intros [[= -> ->]|Hin]%elem_of_cons.
      * right. split; [done|]. exists l0. split; [done|]. right. by left.
      * left. by right.
    + intros [[= -> ->]|Hin]%elem_of_cons; [left; by left|].
      destruct (IH Hin) as [?|(Hk & l1 & Hl & Hor)].
      * left. by right.
      * right. split; [done|]. exists l1. split; [done|].
        destruct Hor as [?|?]; [by left|right; by right].
Qed.







Lemma dict_get_dict_set {V : Type} (k k' : string) (v' : V) (d : list (string * V)) :
  dict_get k (dict_set k' v' d) = if String.eqb k k' then Some v' else dict_get k d.
Proof.
  induction d as [|[k0 v0] d IH]; simpl.
  - by destruct (String.eqb k k').
  - destruct (String.eqb_spec k' k0) as [->|Hne]; simpl.
    + by destruct (String.eqb k k0).
    + destruct (String.eqb_spec k k0) as [->|Hne'].
      * destruct (String.eqb_spec k0 k'); [congruence|done].
      * apply IH.
Qed.

Lemma lca_candidates_dict_get cands k lab cov :
  dict_get k (lca_candidates_dict cands) = Some (lab, cov) ->
  exists c, c ∈ cands /\ node_id c = k /\ covered_starting_nodes c = cov.
Proof.
  unfold lca_candidates_dict. revert k lab cov.
  apply (fold_left_invariant
           (fun d => forall k lab cov, dict_get k d = Some (lab, cov) ->
              exists c, c ∈ cands /\ node_id c = k /\ covered_starting_nodes c = cov));
    [|done].
  intros d c Hc Hd k lab cov. rewrite dict_get_dict_set.
  destruct (String.eqb_spec k (node_id c)) as [->|Hne]; [|apply Hd].
  intros [= <- <-]. eauto.
Qed.



(** The LCA algorithm, on its direct return, can leave a term out without
    reporting it: [n] is covered by no returned term. *)
Lemma trim_LCA_leaves_term_out :
  trim_LCA (fun _ => 0%nat) (mk_trimming onto_diamond 1 []) ["n"; "m"; "m2"] 3
  = Ok (false, [("P", {["m"; "m2"]})]).
Proof. by vm_compute. Qed.



(** ** The loops of the LCA and of the naive algorithm run to their end *)

Lemma lca_select_subset candidates_dict best_cands tp sel r :
  lca_select candidates_dict best_cands tp sel = Ok r -> fst r ⊆ tp.
Proof.
  revert tp sel. induction best_cands as [|b rest IH]; intros tp sel; simpl.
  - by intros [= <-].
  - intros (item & _ & Hrest)%py_bind_Ok. apply IH in Hrest.
    etrans; [done|].
    apply (fold_left_invariant (fun tp' : gset string => tp' ⊆ tp)); [|done].
    intros acc n _ Hacc. set_solver.
Qed.

Lemma lca_step_subset o candidates_dict cand_id tp sel r :
  lca_step o candidates_dict cand_id tp sel = Ok r -> fst r ⊆ tp.
Proof.
  unfold lca_step. intros (cand & _ & Hr)%py_bind_Ok.
  repeat case_match; simplify_eq; try done; by eapply lca_select_subset.
Qed.

(** Every iteration pops an id, so more than [size cands_ids_to_process]
    iterations change nothing. *)
Lemma lca_loop_fuel pick o candidates_dict fuel tp sel :
  (size tp <= fuel)%nat ->
  lca_loop (S fuel) pick o candidates_dict tp sel
  = lca_loop fuel pick o candidates_dict tp sel.
Proof.
  revert tp sel. induction fuel as [|fuel IH]; intros tp sel Hsize.
  - assert (tp = ∅) as -> by (apply leibniz_equiv, size_empty_inv; lia). done.
  - cbn [lca_loop]. destruct (set_pop pick tp) as [[cand_id rest]|] eqn:Hpop; [|done].
    apply set_pop_Some in Hpop as [Hin ->].
    destruct (lca_step o candidates_dict cand_id (tp ∖ {[cand_id]}) sel)
      as [[tp' sel']|e] eqn:Hstep; [|done].
    cbn [mbind py_mbind py_bind fst snd]. apply (IH tp' sel').
    apply lca_step_subset in Hstep. simpl in Hstep.
    apply subseteq_size in Hstep.
    assert (({[cand_id]} : gset string) ⊆ tp) as Hsub by set_solver.
    rewrite (size_difference _ _ Hsub), size_singleton in Hstep. lia.
Qed.

Lemma naive_walk_size fuel related_paths curr_path k selected ap tp :
  (size (snd (fst (naive_walk fuel related_paths curr_path k selected ap tp)))
   <= size ap)%nat.
Proof.
  revert curr_path k selected ap tp.
  induction fuel as [|fuel IH]; intros curr_path k selected ap tp; simpl; [done|].
  destruct (1 <? length curr_path)%nat; [|done].
  destruct (list_pop curr_path) as [[a rest]|]; [|done].
  destruct (negb _); [done|].
  destruct (forallb _ related_paths); [|apply IH].
  etrans; [apply IH|]. rewrite map_size_delete. destruct (ap !! a); simpl; lia.
Qed.

(** Every iteration that goes on deletes a key of [ancestor_paths], so
    [size ancestor_paths + 1] iterations are enough. *)
Lemma naive_merge_term_fuel pick node_id fuel fuel' copy st :
  (size (ancestor_paths st) < fuel)%nat ->
  (size (ancestor_paths st) < fuel')%nat ->
  naive_merge_term fuel pick node_id copy st
  = naive_merge_term fuel' pick node_id copy st.
Proof.
  revert fuel' copy st.
  induction fuel as [|fuel IH]; intros [|fuel'] copy st Hsize Hsize'; try lia.
  cbn [naive_merge_term].
  destruct (pop_copy pick copy) as [p|]; [|done].
  destruct (list_pop (path_list p)) as [[top curr_path]|]; [|done].
  change (string * list string)%type with path in *.
  destruct (ancestor_paths st !! top) as [related|] eqn:Hrel; [|done].
  cbn [default from_option id]. destruct related as [|r0 related]; [done|].
  assert (size (delete top (ancestor_paths st)) < size (ancestor_paths st))%nat as Hdel.
  { rewrite map_size_delete, Hrel.
    assert (size (ancestor_paths st) <> 0%nat); [|simpl; lia].
    intros H0. apply map_size_empty_inv in H0. rewrite H0 in Hrel.
    by rewrite lookup_empty in Hrel. }
  match goal with
  | |- match ?e with pair _ _ => _ end = _ =>
      destruct e as [[selected ap] tp] eqn:Hchoice
  end.
  assert (size ap <= size (delete top (ancestor_paths st)))%nat as Hap.
  { destruct curr_path as [|c0 curr_path]; [by injection Hchoice as _ <- _|].
    match type of Hchoice with
    | (if ?b then _ else _) = _ => destruct b; [by injection Hchoice as _ <- _|]
    end.
    pose proof (naive_walk_size (length (c0 :: curr_path)) (r0 :: related)
                  (c0 :: curr_path) 1 top (delete top (ancestor_paths st))
                  (term_paths st)) as Hw.
    by rewrite Hchoice in Hw. }
  match goal with
  | |- (if ?b then _ else _) = _ => destruct b; [|done]
  end.
  apply IH; simpl; lia.
Qed.

(** * Further properties of the code *)

(** ** The solver: what it returns *)

(** X1: the solver returns only pairs made of the id and of the covered set
    of one of the candidates it was given, and it returns no id twice. *)
Theorem solver_returns_candidates_once onto subsets value cap sel :
  find_set_covering onto subsets value cap = Ok (Some sel) ->
  NoDup (map fst sel)
  /\ forall p, p ∈ sel ->
       exists s, s ∈ subsets /\ p = (node_id s, covered_starting_nodes s).
Proof.
  intros Hsel. split; [by eapply find_set_covering_NoDup|].
  intros p Hp. by eapply find_set_covering_from_subsets.
Qed.

Lemma solver_returns_candidates_once_witness :
  exists sel,
    find_set_covering (Some onto_AB)
      [mk_candidate "A" "A" {["a"]}; mk_candidate "B" "B" {["b"]}] [] None
    = Ok (Some sel)
    /\ NoDup (map fst sel).
Proof.
  destruct (find_set_covering (Some onto_AB)
              [mk_candidate "A" "A" {["a"]}; mk_candidate "B" "B" {["b"]}] [] None)
    as [[sel|]|e] eqn:Hrun; try (vm_compute in Hrun; discriminate).
  exists sel. split; [reflexivity|].
  destruct (solver_returns_candidates_once _ _ _ _ _ Hrun) as [Hnd _].
  exact Hnd.
Defined.

(** ** The solver: when it fails *)

Lemma weights_parallel_total subsets value i s :
  weights_parallel subsets value -> subsets !! i = Some s ->
  is_Some (weight_at value i).
Proof.
  intros Hpar Hi. unfold weight_at.
  destruct Hpar as [->|Hlen]; [by eexists|].
  destruct value as [|v0 value]; [by eexists|].
  apply lookup_lt_is_Some_2. rewrite Hlen. by eapply lookup_lt_Some.
Qed.

Lemma cover_step_ok onto subsets value universe cap st :
  weights_parallel subsets value ->
  elem_to_process st ⊆ subset_ids subsets ->
  cover_guard universe cap st = true ->
  exists st', cover_step onto subsets value st = Ok st'
              /\ elem_to_process st' ⊆ subset_ids subsets.
Proof.
  intros Hpar Hsub Hg.
  assert (exists x, x ∈ elem_to_process st) as [x Hx].
  { apply set_choose_L. intros Hempty. unfold cover_guard in Hg.
    rewrite Hempty, size_empty in Hg. done. }
  assert (exists s, s ∈ subsets /\ node_id s = x) as (s & Hs & <-).
  { apply Hsub in Hx. unfold subset_ids in Hx.
    apply elem_of_list_to_set, elem_of_map in Hx as (s & -> & Hs). eauto. }
  apply list_elem_of_lookup in Hs as [i Hi].
  destruct (weights_parallel_total _ _ _ _ Hpar Hi) as [v Hv].
  assert ((s, v) ∈ remaining subsets value (elem_to_process st)) as Hrem
    by (apply elem_of_remaining; eauto).
  destruct (select_is_Some _ _ _ _ Hrem) as [best Hbest].
  unfold cover_step. rewrite Hbest. eexists. split; [done|]. simpl. set_solver.
Qed.

Lemma cover_loop_ok onto subsets value universe cap fuel st :
  weights_parallel subsets value ->
  elem_to_process st ⊆ subset_ids subsets ->
  exists st', cover_loop fuel onto subsets value universe cap st = Ok st'.
Proof.
  intros Hpar. revert st. induction fuel as [|fuel IH]; intros st Hsub; simpl.
  - by eexists.
  - destruct (cover_guard universe cap st) eqn:Hg; [|by eexists].
    destruct (cover_step_ok onto subsets value universe cap st Hpar Hsub Hg)
      as (st1 & -> & Hsub1).
    simpl. by apply IH.
Qed.

(** X2: when every candidate has a weight (no weight list, or a parallel
    one) the solver raises no exception; without a weight list it always
    returns a selection. *)
Theorem solver_never_raises onto subsets value cap :
  weights_parallel subsets value ->
  (exists r, find_set_covering onto subsets value cap = Ok r)
  /\ (value = [] -> exists sel, find_set_covering onto subsets value cap = Ok (Some sel)).
Proof.
  intros Hpar.
  destruct (cover_loop_ok onto subsets value (universe_of subsets) cap
              (size (subset_ids subsets)) (mk_cover_state (subset_ids subsets) ∅ [])
              Hpar) as [st Hst]; [done|].
  unfold find_set_covering. rewrite Hst. split.
  - destruct (negb _ && _); by eexists.
  - intros ->. simpl. by eexists.
Qed.

Lemma solver_never_raises_witness :
  exists r,
    find_set_covering (Some onto_AB)
      [mk_candidate "A" "A" {["a"]}; mk_candidate "B" "B" {["b"]}] [1%Q; 2%Q] (Some 1)
    = Ok r.
Proof.
  assert (weights_parallel [mk_candidate "A" "A" {["a"]}; mk_candidate "B" "B" {["b"]}]
            [1%Q; 2%Q]) as Hpar by (right; reflexivity).
  destruct (solver_never_raises (Some onto_AB)
              [mk_candidate "A" "A" {["a"]}; mk_candidate "B" "B" {["b"]}]
              [1%Q; 2%Q] (Some 1) Hpar) as [Hok _].
  exact Hok.
Defined.

(** ** The solver: caps that are no caps *)

Lemma cover_loop_cap_zero onto subsets value universe fuel st :
  cover_loop fuel onto subsets value universe (Some 0) st
  = cover_loop fuel onto subsets value universe None st.
Proof.
  revert st. induction fuel as [|fuel IH]; intros st; simpl; [done|].
  assert (cover_guard universe (Some 0) st = cover_guard universe None st) as ->
    by done.
  destruct (cover_guard universe None st); [|done].
  destruct (cover_step onto subsets value st) as [st'|e]; [|done].
  simpl. apply IH.
Qed.

(** X3: a cap of 0 is no cap at all, and under a negative cap the solver
    selects nothing. *)
Theorem solver_cap_zero_or_negative onto subsets value :
  find_set_covering onto subsets value (Some 0)
  = find_set_covering onto subsets value None
  /\ forall cap, cap < 0 ->
       find_set_covering onto subsets value (Some cap) = Ok None
       \/ find_set_covering onto subsets value (Some cap) = Ok (Some []).
Proof.
  split.
  - unfold find_set_covering. by rewrite cover_loop_cap_zero.
  - intros cap Hcap. unfold find_set_covering.
    destruct (negb _ && _); [by left|]. right.
    assert (forall fuel,
              cover_loop fuel onto subsets value (universe_of subsets) (Some cap)
                (mk_cover_state (subset_ids subsets) ∅ [])
              = Ok (mk_cover_state (subset_ids subsets) ∅ [])) as ->; [|done].
    intros [|fuel]; [done|]. simpl.
    assert (cover_guard (universe_of subsets) (Some cap)
              (mk_cover_state (subset_ids subsets) ∅ []) = false) as ->; [|done].
    unfold cover_guard, below_cap. cbn [included_sets length].
    assert ((cap =? 0) = false) as -> by (apply Z.eqb_neq; lia).
    assert ((Z.of_nat 0 <? cap) = false) as -> by (apply Z.ltb_ge; lia).
    by rewrite !andb_false_r.
Qed.

Lemma solver_cap_zero_or_negative_witness :
  find_set_covering None [mk_candidate "A" "A" {["a"]}] [] (Some (-1)) = Ok (Some []).
Proof.
  destruct (solver_cap_zero_or_negative None [mk_candidate "A" "A" {["a"]}] [])
    as [_ Hneg].
  destruct (Hneg (-1) ltac:(lia)) as [H|H]; [vm_compute in H; discriminate|exact H].
Defined.

(** ** The solver: it stops early only for the cap *)

Lemma elem_of_covered_terms sel n :
  n ∈ covered_terms sel <-> exists p, p ∈ sel /\ n ∈ snd p.
Proof.
  unfold covered_terms. rewrite elem_of_union_list. split.
  - intros (X & HX & Hn). apply elem_of_map in HX as (p & -> & Hp). eauto.
  - intros (p & Hp & Hn). exists (snd p). split; [|done].
    apply elem_of_map. eauto.
Qed.

Lemma elem_of_universe_of subsets n :
  n ∈ universe_of subsets <-> exists s, s ∈ subsets /\ n ∈ covered_starting_nodes s.
Proof.
  unfold universe_of. rewrite elem_of_union_list. split.
  - intros (X & HX & Hn). apply elem_of_map in HX as (s & -> & Hs). eauto.
  - intros (s & Hs & Hn). exists (covered_starting_nodes s). split; [|done].
    apply elem_of_map. eauto.
Qed.

Lemma cover_step_covering onto subsets value st st' :
  NoDup (map node_id subsets) ->
  consistent_with onto subsets ->
  covering_inv subsets st ->
  cover_step onto subsets value st = Ok st' ->
  covering_inv subsets st'.
Proof.
  intros Hnd Hcons (Hcov & Hfrom & Hdone) Hstep.
  apply cover_step_inv in Hstep as (best & kept & Hsel & Hkept & ->).
  apply select_spec in Hsel as [(s & v & Hrem & ->) _].
  apply elem_of_remaining in Hrem as (Hetp & i & Hi & _).
  assert (s ∈ subsets) as Hs by (by eapply list_elem_of_lookup_2).
  assert (forall p, p ∈ kept -> p ∈ included_sets st) as Hkept_sub.
  { intros p Hp. subst kept. destruct onto as [o|]; [|done].
    by eapply remove_while_iterating_subset. }
  assert (forall p n, p ∈ included_sets st -> n ∈ snd p ->
            n ∈ covered_starting_nodes s \/ p ∈ kept) as Hdropped.
  { intros p n Hp Hn. subst kept. destruct onto as [o|]; [|by right].
    destruct (superseded_by o (node_id s) p) eqn:Hsup.
    - left. unfold superseded_by in Hsup. apply bool_decide_eq_true in Hsup.
      destruct (Hfrom p Hp) as (s' & Hs' & ->). simpl in *.
      by apply (Hcons s s' Hs Hs' Hsup).
    - right. by apply remove_while_iterating_kept. }
  unfold covering_inv. simpl. split; [|split].
  - apply set_eq. intros n. rewrite elem_of_union, Hcov, !elem_of_covered_terms.
    split.
    + intros [(p & Hp & Hn)|Hn].
      * destruct (Hdropped p n Hp Hn) as [Hs'|Hk].
        -- eexists. split; [apply elem_of_app; right; apply list_elem_of_singleton; done|done].
        -- exists p. split; [apply elem_of_app; by left|done].
      * eexists. split; [apply elem_of_app; right; apply list_elem_of_singleton; done|done].
    + intros (p & Hp & Hn). apply elem_of_app in Hp as [Hp|Hp].
      * left. exists p. split; [by apply Hkept_sub|done].
      * apply list_elem_of_singleton in Hp as ->. by right.
  - intros p Hp. apply elem_of_app in Hp as [Hp|Hp].
    + by apply Hfrom, Hkept_sub.
    + apply list_elem_of_singleton in Hp as ->. eauto.
  - intros s' Hs' Hout. destruct (decide (node_id s' ∈ elem_to_process st)) as [Hin|Hin].
    + assert (node_id s' = node_id s) as Heq.
      { destruct (decide (node_id s' = node_id s)) as [|Hne]; [done|].
        exfalso. apply Hout. simpl. apply elem_of_difference. split; [done|].
        by rewrite elem_of_singleton. }
      assert (s' = s) as ->; [|simpl; set_solver].
      apply list_elem_of_lookup in Hs' as [j Hj].
      assert (j = i) as ->; [|congruence].
      eapply NoDup_lookup; [exact Hnd| |].
      * change (map node_id subsets) with (node_id <$> subsets).
        rewrite list_lookup_fmap, Hj. done.
      * change (map node_id subsets) with (node_id <$> subsets).
        rewrite list_lookup_fmap, Hi. simpl. by rewrite Heq.
    + specialize (Hdone s' Hs' Hin). set_solver.
Qed.

(** X4: when the candidates have distinct ids and agree with the ontology
    (a candidate covers what the candidates below it cover), the solver
    stops before everything the candidates cover is covered only because of
    a cap: the covered terms of its result are all the terms of the
    candidates, or a cap other than 0 is reached. *)
Theorem solver_stops_early_only_for_cap onto subsets value cap sel :
  NoDup (map node_id subsets) ->
  consistent_with onto subsets ->
  find_set_covering onto subsets value cap = Ok (Some sel) ->
  covered_terms sel = universe_of subsets
  \/ exists m, cap = Some m /\ m <> 0 /\ m <= Z.of_nat (length sel).
Proof.
  intros Hnd Hcons Hsel.
  apply find_set_covering_inv in Hsel as (st & Hloop & ->).
  assert (covering_inv subsets st) as (Hcov & Hfrom & Hdone).
  { revert Hloop.
    apply (cover_loop_invariant (covering_inv subsets) onto subsets value
             (universe_of subsets) cap).
    - intros st0 st1 Hinv _ Hstep. by eapply cover_step_covering.
    - unfold covering_inv. simpl. split; [done|]. split.
      + intros p Hp. by apply elem_of_nil in Hp.
      + intros s Hs Hout. exfalso. apply Hout. unfold subset_ids.
        apply elem_of_list_to_set, elem_of_map. eauto. }
  apply cover_loop_finished in Hloop; [|done].
  unfold cover_guard in Hloop.
  apply andb_false_iff in Hloop as [Hloop|Hcap].
  - left. rewrite <- Hcov.
    apply andb_false_iff in Hloop as [Hempty|Hall].
    + apply negb_false_iff, Nat.eqb_eq, size_empty_inv in Hempty.
      apply set_eq. intros n. rewrite elem_of_universe_of. split.
      * rewrite Hcov, elem_of_covered_terms. intros (p & Hp & Hn).
        destruct (Hfrom p Hp) as (s & Hs & ->). eauto.
      * intros (s & Hs & Hn). apply (Hdone s Hs); [|done].
        intros Hin. apply Hempty in Hin. set_solver.
    + by apply negb_false_iff, bool_decide_eq_true in Hall.
  - right. unfold below_cap in Hcap. destruct cap as [m|]; [|done].
    apply orb_false_iff in Hcap as [Hm Hlt].
    exists m. split; [done|]. split.
    + by apply Z.eqb_neq.
    + by apply Z.ltb_ge.
Qed.

Lemma solver_stops_early_only_for_cap_witness :
  exists sel,
    find_set_covering (Some onto_AB)
      [mk_candidate "A" "A" {["a"; "b"]}; mk_candidate "B" "B" {["b"]}] [] None
    = Ok (Some sel)
    /\ covered_terms sel
       = universe_of [mk_candidate "A" "A" {["a"; "b"]}; mk_candidate "B" "B" {["b"]}].
Proof.
  destruct (find_set_covering (Some onto_AB)
              [mk_candidate "A" "A" {["a"; "b"]}; mk_candidate "B" "B" {["b"]}] [] None)
    as [[sel|]|e] eqn:Hrun; try (vm_compute in Hrun; discriminate).
  exists sel. split; [reflexivity|].
  assert (NoDup (map node_id
            [mk_candidate "A" "A" {["a"; "b"]}; mk_candidate "B" "B" {["b"]}])) as Hnd.
  { apply NoDup_cons. split; [|apply NoDup_singleton].
    intros H. apply list_elem_of_singleton in H. discriminate. }
  assert (consistent_with (Some onto_AB)
            [mk_candidate "A" "A" {["a"; "b"]}; mk_candidate "B" "B" {["b"]}]) as Hcons.
  { intros s s' Hs Hs' Hanc.
    apply elem_of_cons in Hs as [->|Hs]; [|apply list_elem_of_singleton in Hs as ->];
      (apply elem_of_cons in Hs' as [->|Hs']; [|apply list_elem_of_singleton in Hs' as ->]);
      simpl in *; first [set_solver | by apply elem_of_nil in Hanc]. }
  destruct (solver_stops_early_only_for_cap _ _ _ _ _ Hnd Hcons Hrun)
    as [Hall|(m & Hm & _)]; [exact Hall|discriminate].
Defined.

(** ** The candidates *)

Lemma dict_get_dict_append {X : Type} (k k' : string) (x : X)
  (d : list (string * list X)) :
  dict_get k' (dict_append k x d)
  = if String.eqb k' k then Some (default [] (dict_get k d) ++ [x])
    else dict_get k' d.
Proof.
  induction d as [|[k0 xs] d IH]; simpl.
  - rewrite (String.eqb_sym k' k). by destruct (String.eqb k k').
  - destruct (String.eqb k k0) eqn:Hk0; simpl.
    + apply String.eqb_eq in Hk0 as ->.
      by destruct (String.eqb k' k0).
    + destruct (String.eqb k' k0) eqn:Hk'0.
      * apply String.eqb_eq in Hk'0 as ->.
        rewrite (String.eqb_sym k0 k), Hk0. done.
      * rewrite IH. done.
Qed.

Lemma dict_get_elem {V : Type} (k : string) (v : V) (d : list (string * V)) :
  dict_get k d = Some v -> (k, v) ∈ d.
Proof.
  induction d as [|[k0 v0] d IH]; simpl; [done|].
  destruct (String.eqb k k0) eqn:Hk.
  - apply String.eqb_eq in Hk as ->. intros [= ->]. apply elem_of_cons. by left.
  - intros Hget. apply elem_of_cons. right. by apply IH.
Qed.

Lemma dict_append_keys {X : Type} (k : string) (x : X) (d : list (string * list X)) :
  NoDup (map fst d) -> NoDup (map fst (dict_append k x d)).
Proof.
  induction d as [|[k0 xs] d IH]; simpl; intros Hnd.
  - apply NoDup_singleton.
  - apply NoDup_cons in Hnd as [Hnotin Hnd].
    destruct (String.eqb k k0) eqn:Hk; simpl.
    + apply String.eqb_eq in Hk as ->. by apply NoDup_cons.
    + apply NoDup_cons. split; [|by apply IH].
      intros Hin. apply elem_of_map in Hin as ([k1 l1] & Hk1 & Hin). simpl in Hk1.
      subst k1. apply dict_append_elem in Hin as [Hin|[-> _]].
      * apply Hnotin. apply elem_of_map. by exists (k0, l1).
      * by rewrite String.eqb_refl in Hk.
Qed.

Lemma collect_ancestors_keys o blacklist min_d common_root node_ids :
  NoDup (map fst (collect_ancestors o blacklist min_d common_root node_ids)).
Proof.
  unfold collect_ancestors.
  apply (fold_left_invariant (fun d => NoDup (map fst d))); [|apply NoDup_nil_2].
  intros acc n _ Hacc. unfold collect_for_node.
  apply (fold_left_invariant (fun d => NoDup (map fst d))); [|done].
  intros acc' a _ Hacc'. destruct (candidate_ok _ _ _ _ a); [|done].
  by apply dict_append_keys.
Qed.

Lemma listed_under_append d a n k x :
  listed_under d a n -> listed_under (dict_append k x d) a n.
Proof.
  intros (l & Hget & Hn). unfold listed_under. rewrite dict_get_dict_append.
  destruct (String.eqb a k) eqn:Hk; [|eauto].
  apply String.eqb_eq in Hk as ->. rewrite Hget. simpl.
  eexists. split; [done|]. apply elem_of_app. by left.
Qed.

Lemma collect_for_node_keeps o blacklist min_d common_root acc m a n :
  listed_under acc a n ->
  listed_under (collect_for_node o blacklist min_d common_root acc m) a n.
Proof.
  intros Hacc. unfold collect_for_node.
  apply (fold_left_invariant (fun d => listed_under d a n)); [|done].
  intros acc' a' _ Hacc'. destruct (candidate_ok _ _ _ _ a'); [|done].
  by apply listed_under_append.
Qed.

Lemma collect_for_node_lists o blacklist min_d common_root acc a n :
  a ∈ ancestors_reflexive o n ->
  candidate_ok o blacklist min_d common_root a = true ->
  listed_under (collect_for_node o blacklist min_d common_root acc n) a n.
Proof.
  unfold collect_for_node. generalize (ancestors_reflexive o n) as anc.
  intros anc. revert acc. induction anc as [|a' anc IH]; intros acc Hin Hok.
  - by apply elem_of_nil in Hin.
  - simpl. apply elem_of_cons in Hin as [<-|Hin].
    + rewrite Hok.
      apply (fold_left_invariant (fun d => listed_under d a n)).
      * intros acc' a' _ Hacc'. destruct (candidate_ok _ _ _ _ a'); [|done].
        by apply listed_under_append.
      * unfold listed_under. rewrite dict_get_dict_append, String.eqb_refl.
        eexists. split; [done|]. apply elem_of_app. right.
        by apply list_elem_of_singleton.
    + by apply IH.
Qed.

Lemma collect_ancestors_lists o blacklist min_d common_root node_ids a n :
  n ∈ node_ids -> a ∈ ancestors_reflexive o n ->
  candidate_ok o blacklist min_d common_root a = true ->
  listed_under (collect_ancestors o blacklist min_d common_root node_ids) a n.
Proof.
  unfold collect_ancestors. generalize (@nil (string * list string)) as acc.
  induction node_ids as [|m node_ids IH]; intros acc Hn Ha Hok.
  - by apply elem_of_nil in Hn.
  - simpl. apply elem_of_cons in Hn as [<-|Hn].
    + apply (fold_left_invariant (fun d => listed_under d a n)).
      * intros acc' m _ Hacc'. by apply collect_for_node_keeps.
      * by apply collect_for_node_lists.
    + by apply IH.
Qed.

Lemma get_all_trimming_candidates_inv o blacklist node_ids min_d cands :
  get_all_trimming_candidates o blacklist node_ids min_d = Ok cands ->
  exists common_root,
    nodes_have_same_root o node_ids = RootIs (Some common_root)
    /\ common_root <> ""
    /\ cands = map (fun entry => mk_candidate (fst entry) (label o (fst entry))
                                   (list_to_set (snd entry)))
                 (filter (fun entry => keep_candidate entry = true)
                    (collect_ancestors o blacklist min_d common_root node_ids)).
Proof.
  unfold get_all_trimming_candidates.
  destruct (nodes_have_same_root o node_ids) as [|[r|]]; try done.
  destruct (String.eqb r "") eqn:Hr; [done|]. intros [= <-].
  exists r. split; [done|]. split; [|done]. by apply String.eqb_neq.
Qed.

Lemma dict_set_fresh {V : Type} (k : string) (v : V) (d : list (string * V)) :
  k ∉ map fst d -> dict_set k v d = d ++ [(k, v)].
Proof.
  induction d as [|[k0 v0] d IH]; simpl; intros Hk; [done|].
  apply not_elem_of_cons in Hk as [Hne Hk].
  destruct (String.eqb k k0) eqn:Heq; [by apply String.eqb_eq in Heq|].
  by rewrite IH.
Qed.

Lemma lca_candidates_dict_keys cands :
  NoDup (map node_id cands) ->
  lca_candidates_dict cands
  = map (fun c => (node_id c, (node_label c, covered_starting_nodes c))) cands.
Proof.
  unfold lca_candidates_dict.
  assert (forall acc,
            NoDup (map fst acc ++ map node_id cands) ->
            fold_left (fun d c => dict_set (node_id c)
                                    (node_label c, covered_starting_nodes c) d) cands acc
            = acc ++ map (fun c => (node_id c, (node_label c, covered_starting_nodes c)))
                       cands) as Hgen.
  { induction cands as [|c cands IH]; intros acc Hnd; simpl.
    - by rewrite app_nil_r.
    - simpl in Hnd. apply NoDup_app in Hnd as (Hacc & Hdisj & Hcs).
      apply NoDup_cons in Hcs as [Hc Hcs].
      rewrite dict_set_fresh.
      + rewrite IH; [by rewrite <- app_assoc|].
        rewrite map_app. simpl. rewrite <- app_assoc. simpl.
        apply NoDup_app. split; [done|]. split; [|by apply NoDup_cons].
        intros x Hx. by apply Hdisj.
      + intros Hin. apply (Hdisj _ Hin). apply elem_of_cons. by left. }
  intros Hnd. by rewrite (Hgen [] Hnd).
Qed.

Lemma candidates_NoDup o blacklist node_ids min_d cands :
  get_all_trimming_candidates o blacklist node_ids min_d = Ok cands ->
  NoDup (map node_id cands).
Proof.
  intros Hc. apply get_all_trimming_candidates_inv in Hc as (r & _ & _ & ->).
  pose proof (collect_ancestors_keys o blacklist min_d r node_ids) as Hnd.
  revert Hnd. generalize (collect_ancestors o blacklist min_d r node_ids) as d.
  intros d Hnd. induction d as [|[k l] d IH]; [apply NoDup_nil_2|].
  simpl in Hnd. apply NoDup_cons in Hnd as [Hnotin Hnd].
  rewrite filter_cons. destruct (decide (keep_candidate (k, l) = true)); [|by apply IH].
  simpl. apply NoDup_cons. split; [|by apply IH].
  intros Hin. apply Hnotin.
  apply elem_of_map in Hin as (c & Hk & Hin).
  apply elem_of_map in Hin as ([k' l'] & -> & Hin). simpl in Hk. subst k'.
  apply list_elem_of_filter in Hin as [_ Hin].
  apply elem_of_map. by exists (k, l').
Qed.

(** X5: the candidates have distinct ids (no term is proposed twice), so
    that the dictionary the LCA trimming makes of them has one entry for
    each candidate, in the order of the candidates. *)
Theorem candidates_distinct_ids o blacklist node_ids min_d cands :
  get_all_trimming_candidates o blacklist node_ids min_d = Ok cands ->
  NoDup (map node_id cands)
  /\ lca_candidates_dict cands
     = map (fun c => (node_id c, (node_label c, covered_starting_nodes c))) cands.
Proof.
  intros Hc. pose proof (candidates_NoDup _ _ _ _ _ Hc) as Hnd.
  split; [done|]. by apply lca_candidates_dict_keys.
Qed.

Lemma candidates_distinct_ids_witness :
  exists cands,
    get_all_trimming_candidates onto_diamond [] ["m"; "m2"] 1 = Ok cands
    /\ NoDup (map node_id cands).
Proof.
  destruct (get_all_trimming_candidates onto_diamond [] ["m"; "m2"] 1)
    as [cands|e] eqn:Hrun; [|vm_compute in Hrun; discriminate].
  exists cands. split; [reflexivity|].
  exact (proj1 (candidates_distinct_ids _ _ _ _ _ Hrun)).
Defined.

(** X6: an ancestor of an input term, or the term itself, that passes the
    depth, namespace and blacklist tests is a candidate as soon as it is an
    input term itself or an ancestor of two different input terms; the
    candidate covers the input terms below it. *)
Theorem eligible_terms_are_candidates o blacklist node_ids min_d cands common_root
  a n1 n2 :
  get_all_trimming_candidates o blacklist node_ids min_d = Ok cands ->
  nodes_have_same_root o node_ids = RootIs (Some common_root) ->
  candidate_ok o blacklist min_d common_root a = true ->
  n1 ∈ node_ids -> a ∈ ancestors_reflexive o n1 ->
  n2 ∈ node_ids -> a ∈ ancestors_reflexive o n2 ->
  n1 <> n2 \/ a = n1 ->
  exists c, c ∈ cands /\ node_id c = a /\ node_label c = label o a
            /\ n1 ∈ covered_starting_nodes c /\ n2 ∈ covered_starting_nodes c.
Proof.
  intros Hc Hroot Hok Hn1 Ha1 Hn2 Ha2 Hkeep.
  apply get_all_trimming_candidates_inv in Hc as (r & Hr & _ & ->).
  rewrite Hroot in Hr. injection Hr as <-.
  destruct (collect_ancestors_lists o blacklist min_d common_root node_ids a n1
              Hn1 Ha1 Hok) as (l & Hget & Hl1).
  destruct (collect_ancestors_lists o blacklist min_d common_root node_ids a n2
              Hn2 Ha2 Hok) as (l2 & Hget2 & Hl2).
  rewrite Hget in Hget2. injection Hget2 as <-.
  exists (mk_candidate a (label o a) (list_to_set l)). simpl.
  split; [|by rewrite !elem_of_list_to_set].
  apply elem_of_map. exists (a, l). split; [done|].
  apply list_elem_of_filter. split; [|by apply dict_get_elem].
  unfold keep_candidate. simpl.
  destruct l as [|x [|y l]].
  - by apply elem_of_nil in Hl1.
  - apply list_elem_of_singleton in Hl1 as ->. apply list_elem_of_singleton in Hl2 as ->.
    destruct Hkeep as [Hne| ->]; [done|]. simpl. apply String.eqb_refl.
  - done.
Qed.

Lemma eligible_terms_are_candidates_witness :
  exists cands c,
    get_all_trimming_candidates onto_diamond [] ["m"; "m2"] 1 = Ok cands
    /\ c ∈ cands /\ node_id c = "P"
    /\ "m" ∈ covered_starting_nodes c /\ "m2" ∈ covered_starting_nodes c.
Proof.
  destruct (get_all_trimming_candidates onto_diamond [] ["m"; "m2"] 1)
    as [cands|e] eqn:Hrun; [|vm_compute in Hrun; discriminate].
  assert (nodes_have_same_root onto_diamond ["m"; "m2"] = RootIs (Some "bp")) as Hroot
    by reflexivity.
  assert (candidate_ok onto_diamond [] 1 "bp" "P" = true) as Hok by reflexivity.
  assert ("m" ∈ ["m"; "m2"]) as Hn1 by (apply elem_of_cons; by left).
  assert ("m2" ∈ ["m"; "m2"]) as Hn2
    by (apply elem_of_cons; right; by apply list_elem_of_singleton).
  assert ("P" ∈ ancestors_reflexive onto_diamond "m") as Ha1
    by (apply elem_of_cons; right; apply elem_of_cons; by left).
  assert ("P" ∈ ancestors_reflexive onto_diamond "m2") as Ha2
    by (apply elem_of_cons; by left).
  assert ("m" <> "m2" \/ "P" = "m") as Hkeep by (left; discriminate).
  destruct (eligible_terms_are_candidates _ _ _ _ _ _ _ _ _
              Hrun Hroot Hok Hn1 Ha1 Hn2 Ha2 Hkeep)
    as (c & Hc & Hid & _ & Hc1 & Hc2).
  exists cands, c. split; [reflexivity|]. split; [exact Hc|]. split; [exact Hid|].
  split; [exact Hc1|exact Hc2].
Defined.

(** ** The trimming algorithms: when they fail *)


Lemma positive_candidates (f : TrimmingCandidate -> Q) (cands : list TrimmingCandidate) :
  map fst (filter (fun cv => Qlt_bool 0 (snd cv) = true) (zip cands (map f cands)))
  = filter (fun c => Qlt_bool 0 (f c) = true) cands.
Proof.
  induction cands as [|c cands IH]; [done|].
  simpl. rewrite !filter_cons. simpl.
  destruct (decide (Qlt_bool 0 (f c) = true)); simpl; by rewrite IH.
Qed.




Lemma candidates_raise_ValueError o blacklist node_ids min_d e :
  get_all_trimming_candidates o blacklist node_ids min_d = Raise e -> e = ValueError.
Proof.
  unfold get_all_trimming_candidates.
  destruct (nodes_have_same_root o node_ids) as [|[r|]];
    [by intros [= <-]| |by intros [= <-]].
  destruct (String.eqb r ""); [by intros [= <-]|done].
Qed.

Lemma find_set_covering_unweighted onto subsets cap :
  exists sel, find_set_covering onto subsets [] cap = Ok (Some sel).
Proof.
  destruct (cover_loop_ok onto subsets [] (universe_of subsets) cap
              (size (subset_ids subsets)) (mk_cover_state (subset_ids subsets) ∅ []))
    as [st Hst]; [by left|done|].
  unfold find_set_covering. rewrite Hst. simpl. by eexists.
Qed.

Lemma dict_get_is_Some {V : Type} (e : string * V) (d : list (string * V)) :
  e ∈ d -> is_Some (dict_get (fst e) d).
Proof.
  induction d as [|[k0 v0] d IH]; intros He; [by apply elem_of_nil in He|].
  simpl. destruct (String.eqb (fst e) k0) eqn:Hk; [by eexists|].
  apply elem_of_cons in He as [->|He]; [|by apply IH].
  simpl in Hk. by rewrite String.eqb_refl in Hk.
Qed.

Lemma dict_get_key {V : Type} (k : string) (d : list (string * V)) :
  k ∈ map fst d -> is_Some (dict_get k d).
Proof.
  intros Hk. apply elem_of_map in Hk as (e & -> & He). by apply dict_get_is_Some.
Qed.

Lemma max_from_in (x0 : Z) (l : list Z) : max_from x0 l ∈ x0 :: l.
Proof.
  unfold max_from. revert x0. induction l as [|y l IH]; intros x0; simpl.
  - apply elem_of_cons. by left.
  - specialize (IH (Z.max x0 y)). apply elem_of_cons in IH as [IH|IH].
    + rewrite IH. destruct (Z.max_spec x0 y) as [[_ ->]|[_ ->]].
      * apply elem_of_cons. right. apply elem_of_cons. by left.
      * apply elem_of_cons. by left.
    + apply elem_of_cons. right. apply elem_of_cons. by right.
Qed.

Lemma lca_select_ok candidates_dict best_cands tp sel :
  (forall b, b ∈ best_cands -> is_Some (dict_get (fst b) candidates_dict)) ->
  (forall k, k ∈ sel -> is_Some (dict_get k candidates_dict)) ->
  exists r, lca_select candidates_dict best_cands tp sel = Ok r
            /\ forall k, k ∈ snd r -> is_Some (dict_get k candidates_dict).
Proof.
  revert tp sel. induction best_cands as [|b best_cands IH]; intros tp sel Hbest Hsel.
  - simpl. eexists. split; [done|]. done.
  - simpl. unfold dict_item.
    destruct (Hbest b) as [item Hitem]; [apply elem_of_cons; by left|].
    rewrite Hitem. simpl. apply IH.
    + intros b' Hb'. apply Hbest. apply elem_of_cons. by right.
    + intros k Hk. apply elem_of_app in Hk as [Hk|Hk]; [by apply Hsel|].
      apply list_elem_of_singleton in Hk as ->. by eexists.
Qed.

Lemma lca_step_ok o candidates_dict cand_id tp sel :
  is_Some (dict_get cand_id candidates_dict) ->
  (forall k, k ∈ sel -> is_Some (dict_get k candidates_dict)) ->
  exists r, lca_step o candidates_dict cand_id tp sel = Ok r
            /\ forall k, k ∈ snd r -> is_Some (dict_get k candidates_dict).
Proof.
  intros [cand Hcand] Hsel. unfold lca_step, dict_item. rewrite Hcand.
  cbn beta iota zeta delta [mbind py_mbind py_bind].
  assert (forall k, k ∈ sel ++ [cand_id] -> is_Some (dict_get k candidates_dict))
    as Hsel'.
  { intros k Hk. apply elem_of_app in Hk as [Hk|Hk]; [by apply Hsel|].
    apply list_elem_of_singleton in Hk as ->. by eexists. }
  match goal with
  | |- exists r, match ?c with [] => _ | _ :: _ => _ end = Ok r /\ _ =>
      assert (forall x, x ∈ c -> is_Some (dict_get (fst x) candidates_dict)) as Hcomp;
      [|destruct c as [|c0 rest]]
  end.
  { intros c Hc. apply elem_of_map in Hc as (e & -> & He).
    apply list_elem_of_filter in He as [_ He]. simpl. by apply dict_get_is_Some. }
  { eexists. split; [done|]. done. }
  match goal with
  | |- exists r, match ?b with [] => _ | _ :: _ => _ end = Ok r /\ _ =>
      assert ((exists cm, cm ∈ b)
              /\ forall x, x ∈ b -> is_Some (dict_get (fst x) candidates_dict))
        as [[cm Hcm] Hbest];
      [|destruct b as [|b0 best']; [by apply elem_of_nil in Hcm|]]
  end.
  { split.
    - pose proof (max_from_in (Z.of_nat (size (snd c0)))
                    (map (fun c : string * gset string => Z.of_nat (size (snd c)))
                       (c0 :: rest))) as Hin.
      apply elem_of_cons in Hin as [Hin|Hin].
      + exists c0. apply list_elem_of_filter. split; [done|apply elem_of_cons; by left].
      + apply elem_of_map in Hin as (c & Hc & Hin). exists c.
        by apply list_elem_of_filter.
    - intros x Hx. apply list_elem_of_filter in Hx as [_ Hx]. by apply Hcomp. }
  clear Hcm.
  match goal with
  | |- exists r, (let '(bc, mw) := ?pair in _) = Ok r /\ _ =>
      assert (fst pair <> []
              /\ forall b, b ∈ fst pair -> is_Some (dict_get (fst b) candidates_dict))
        as [Hne Hknown];
      [|destruct pair as [best_cands max_weight]]
  end.
  { destruct (1 <? length (b0 :: best'))%nat; [|split; [done|exact Hbest]].
    cbn [fst].
    match goal with
    | |- map snd (filter _ ?w) <> [] /\ _ => set (weighted := w)
    end.
    assert (Permutation weighted
              (map (fun c : string * gset string => (depth (node o (fst c)), c))
                 (b0 :: best'))) as Hperm by apply sorted_perm.
    split.
    - assert (exists w, w ∈ weighted
                        /\ fst w = max_from (depth (node o (fst b0))) (map fst weighted))
        as (w & Hwin & Hwmax).
      { pose proof (max_from_in (depth (node o (fst b0))) (map fst weighted)) as Hin.
        apply elem_of_cons in Hin as [Hin|Hin].
        - exists (depth (node o (fst b0)), b0). split; [|done].
          rewrite Hperm. apply elem_of_map. exists b0. split; [done|].
          apply elem_of_cons. by left.
        - apply elem_of_map in Hin as (w & Hwmax & Hin). by exists w. }
      intros Hnil.
      assert (snd w ∈ map snd (filter (fun w => fst w = max_from (depth (node o (fst b0)))
                                                         (map fst weighted)) weighted))
        as Hin.
      { apply elem_of_map. exists w. split; [done|]. by apply list_elem_of_filter. }
      rewrite Hnil in Hin. by apply elem_of_nil in Hin.
    - intros b Hb. apply elem_of_map in Hb as (w & -> & Hb).
      apply list_elem_of_filter in Hb as [_ Hb]. rewrite Hperm in Hb.
      apply elem_of_map in Hb as (c & -> & Hc). simpl. by apply Hbest. }
  simpl in Hne, Hknown. destruct best_cands as [|b best_rest]; [done|].
  apply lca_select_ok; [|done].
  destruct ((size (snd b) <? size (snd cand))%nat
            || (size (snd b) <? size (snd cand))%nat
               && (max_weight <? depth (node o cand_id))).
  - intros b' Hb'. apply list_elem_of_singleton in Hb' as ->. simpl. by eexists.
  - exact Hknown.
Qed.

Lemma lca_loop_ok pick o candidates_dict fuel tp sel :
  (forall k, k ∈ tp -> is_Some (dict_get k candidates_dict)) ->
  (forall k, k ∈ sel -> is_Some (dict_get k candidates_dict)) ->
  exists ids, lca_loop fuel pick o candidates_dict tp sel = Ok ids
              /\ forall k, k ∈ ids -> is_Some (dict_get k candidates_dict).
Proof.
  revert tp sel. induction fuel as [|fuel IH]; intros tp sel Htp Hsel; simpl.
  - by exists sel.
  - destruct (set_pop pick tp) as [[cand_id rest]|] eqn:Hpop; [|by exists sel].
    apply set_pop_Some in Hpop as [Hin ->].
    destruct (lca_step_ok o candidates_dict cand_id (tp ∖ {[cand_id]}) sel
                (Htp _ Hin) Hsel) as (r & Hstep & Hr).
    rewrite Hstep. simpl. apply IH; [|done].
    intros k Hk. apply lca_step_subset in Hstep. apply Htp. set_solver.
Qed.

Lemma lca_items_ok candidates_dict ids :
  (forall k, k ∈ ids -> is_Some (dict_get k candidates_dict)) ->
  exists items, lca_items candidates_dict ids = Ok items.
Proof.
  induction ids as [|k ids IH]; intros Hids; simpl; [by eexists|].
  unfold dict_item. destruct (Hids k) as [item ->]; [apply elem_of_cons; by left|].
  simpl. destruct IH as [items ->].
  - intros k' Hk'. apply Hids. apply elem_of_cons. by right.
  - simpl. by eexists.
Qed.

(** X8: the only failure of the LCA trimming is the [ValueError] of the
    candidate computation: whenever the candidates can be computed, a result
    is returned, whatever the order in which the set of candidate ids is
    popped (no [candidates_dict] lookup fails and no [max] or [[0]] is taken
    of an empty list). *)
Theorem trim_LCA_fails_only_on_roots pick self node_ids cap :
  (exists r, trim_LCA pick self node_ids cap = Ok r)
  \/ (trim_LCA pick self node_ids cap = Raise ValueError
      /\ get_all_trimming_candidates (ontology self) (nodeids_blacklist self) node_ids
           (min_distance_from_root self) = Raise ValueError).
Proof.
  unfold trim_LCA.
  destruct (get_all_trimming_candidates (ontology self) (nodeids_blacklist self)
              node_ids (min_distance_from_root self)) as [cands|e] eqn:Hc.
  - left. simpl. unfold lca_selected.
    destruct (lca_loop_ok pick (ontology self) (lca_candidates_dict cands)
                (size (list_to_set (map fst (lca_candidates_dict cands)) : gset string))
                (list_to_set (map fst (lca_candidates_dict cands))) [])
      as (ids & -> & Hids).
    + intros k Hk. apply elem_of_list_to_set in Hk. by apply dict_get_key.
    + intros k Hk. by apply elem_of_nil in Hk.
    + simpl. destruct (lca_items_ok _ _ Hids) as [items ->]. simpl.
      destruct (Z.of_nat (length ids) <=? cap); [by eexists|].
      destruct (find_set_covering_unweighted (Some (ontology self))
                  (map (fun it => mk_candidate (fst it) (label (ontology self) (fst it))
                                    (snd it)) items) (Some cap)) as [sel ->].
      simpl. by eexists.
  - right. apply candidates_raise_ValueError in Hc as ->. done.
Qed.

(** ** The naive trimming: path enumeration *)

Lemma followed_parents_parents o min_d root n p :
  p ∈ followed_parents o min_d root n -> p ∈ parents o n.
Proof.
  unfold followed_parents. destruct (truthy root); intros Hp.
  - apply list_elem_of_filter in Hp as [_ Hp]. by apply list_elem_of_filter in Hp as [_ Hp].
  - by apply list_elem_of_filter in Hp as [_ Hp].
Qed.

Lemma get_all_paths_to_root_step fuel o node_id min_d blacklist previous_path root :
  get_all_paths_to_root (S fuel) o node_id min_d blacklist previous_path root
  = let new_path :=
      if not_blacklisted blacklist node_id then previous_path ++ [node_id]
      else previous_path in
    match followed_parents o min_d root node_id with
    | [] => Ok {[ path_of node_id new_path ]}
    | _ =>
        fold_left (fun acc parent =>
                     paths_to_return ← acc;
                     paths ← get_all_paths_to_root fuel o parent min_d blacklist
                               new_path root;
                     Ok (paths_to_return ∪ paths))
          (followed_parents o min_d root node_id) (Ok ∅)
    end.
Proof. reflexivity. Qed.



Lemma trim_Naive_after_groups fuel pick self node_ids cap groups :
  naive_groups fuel pick self node_ids = Ok groups ->
  exists r, trim_Naive fuel pick self node_ids cap = Ok r.
Proof.
  intros Hg. unfold trim_Naive. rewrite Hg. simpl.
  destruct (Z.of_nat (length groups) <=? cap); [by eexists|].
  destruct (find_set_covering_unweighted (Some (ontology self))
              (map (fun kv => mk_candidate (fst kv) (label (ontology self) (fst kv))
                                (snd kv)) groups) (Some cap)) as [sel ->].
  simpl. by eexists.
Qed.



Lemma paths_fold_ok (fuel : nat) (o : Ontology) (min_d : Z) (blacklist : list string)
  (new_path : list string) (root : option string) (rank : string -> nat)
  (l : list string) (s0 : gset path) :
  (forall (node_id : string) (previous_path : list string),
     (rank node_id < fuel)%nat ->
     exists ps : gset path, get_all_paths_to_root fuel o node_id min_d blacklist previous_path root
                = Ok ps /\ ps <> ∅) ->
  (forall p, p ∈ l -> (rank p < fuel)%nat) ->
  exists s,
    fold_left (fun acc parent =>
                 paths_to_return ← acc;
                 paths ← get_all_paths_to_root fuel o parent min_d blacklist
                           new_path root;
                 Ok (paths_to_return ∪ paths)) l (Ok s0) = Ok s
    /\ s0 ⊆ s /\ (l <> [] -> s <> ∅).
Proof.
  intros Hrec. revert s0. induction l as [|p l IH]; intros s0 Hl; simpl.
  - exists s0. split; [done|]. split; done.
  - destruct (Hrec p new_path) as (ps & -> & Hps).
    { apply Hl. apply elem_of_cons. by left. }
    simpl. destruct (IH (s0 ∪ ps)) as (s & -> & Hsub & _).
    { intros p' Hp'. apply Hl. apply elem_of_cons. by right. }
    exists s. split; [done|]. split; [set_solver|].
    intros _ Hs. apply Hps. set_solver.
Qed.

Lemma get_all_paths_ok (rank : string -> nat) (o : Ontology) (min_d : Z)
  (blacklist : list string) (root : option string) (fuel : nat) :
  (forall n p, p ∈ parents o n -> (rank p < rank n)%nat) ->
  forall (node_id : string) (previous_path : list string),
    (rank node_id < fuel)%nat ->
    exists ps : gset path, get_all_paths_to_root fuel o node_id min_d blacklist previous_path root
               = Ok ps /\ ps <> ∅.
Proof.
  intros Hrank. induction fuel as [|fuel IH]; intros node_id previous_path Hlt; [lia|].
  rewrite get_all_paths_to_root_step. cbv zeta.
  destruct (followed_parents o min_d root node_id) as [|p0 ps] eqn:Hps.
  - eexists. split; [done|]. apply non_empty_singleton_L.
  - rewrite <- Hps.
    destruct (paths_fold_ok fuel o min_d blacklist
                (if not_blacklisted blacklist node_id then previous_path ++ [node_id]
                 else previous_path) root rank
                (followed_parents o min_d root node_id) ∅ IH) as (s & Hs & _ & Hne).
    + intros p Hp. apply followed_parents_parents in Hp.
      specialize (Hrank _ _ Hp). lia.
    + exists s. split; [done|]. apply Hne. by rewrite Hps.
Qed.

Lemma naive_collect_ok (rank : string -> nat) fuel pick self node_ids st :
  (forall n p, p ∈ parents (ontology self) n -> (rank p < rank n)%nat) ->
  (forall n, n ∈ node_ids -> (rank n < fuel)%nat) ->
  exists st', naive_collect fuel pick self node_ids st = Ok st'.
Proof.
  intros Hrank. revert st. induction node_ids as [|n node_ids IH]; intros st Hfuel; simpl.
  - by eexists.
  - destruct (get_all_paths_ok rank (ontology self) (min_distance_from_root self)
                (nodeids_blacklist self) (node_root (node (ontology self) n)) fuel
                Hrank n []) as (ps & -> & _).
    { apply Hfuel. apply elem_of_cons. by left. }
    simpl. apply IH. intros n' Hn'. apply Hfuel. apply elem_of_cons. by right.
Qed.

(** X10: on an ontology without cycles (every parent link decreases a
    rank), the path enumeration from a term returns a non-empty set of
    paths as soon as the recursion may go deeper than the rank of the term,
    and the naive trimming then returns a result for every cap and every
    iteration order of its sets. *)
Theorem trim_Naive_returns (rank : string -> nat) fuel pick self node_ids cap :
  (forall n p, p ∈ parents (ontology self) n -> (rank p < rank n)%nat) ->
  (forall n, n ∈ node_ids -> (rank n < fuel)%nat) ->
  (forall (n : string) (previous_path : list string) (root : option string),
     n ∈ node_ids ->
     exists ps : gset path, get_all_paths_to_root fuel (ontology self) n
                  (min_distance_from_root self) (nodeids_blacklist self)
                  previous_path root = Ok ps
                /\ ps <> ∅)
  /\ exists r, trim_Naive fuel pick self node_ids cap = Ok r.
Proof.
  intros Hrank Hfuel. split.
  - intros n previous_path root Hn. apply (get_all_paths_ok rank); [done|].
    by apply Hfuel.
  - destruct (naive_collect_ok rank fuel pick self node_ids (mk_naive_state ∅ ∅ [])
                Hrank Hfuel) as [st Hst].
    apply (trim_Naive_after_groups fuel pick self node_ids cap
             (final_terms_set (naive_merge pick node_ids st))).
    unfold naive_groups. by rewrite Hst.
Qed.

Lemma rank_two_paths_decreases n p :
  p ∈ parents onto_two_paths n -> (rank_two_paths p < rank_two_paths n)%nat.
Proof.
  unfold onto_two_paths. cbn [parents].
  destruct (String.eqb n "m") eqn:Hm.
  { apply String.eqb_eq in Hm as ->. intros Hp.
    apply elem_of_cons in Hp as [->|Hp]; [vm_compute; lia|].
    apply list_elem_of_singleton in Hp as ->. vm_compute. lia. }
  destruct (String.eqb n "n") eqn:Hn.
  { apply String.eqb_eq in Hn as ->. intros Hp.
    apply list_elem_of_singleton in Hp as ->. vm_compute. lia. }
  destruct (String.eqb n "P") eqn:HP.
  { apply String.eqb_eq in HP as ->. intros Hp.
    apply list_elem_of_singleton in Hp as ->. vm_compute. lia. }
  destruct (String.eqb n "Q") eqn:HQ.
  { apply String.eqb_eq in HQ as ->. intros Hp.
    apply list_elem_of_singleton in Hp as ->. vm_compute. lia. }
  intros Hp. by apply elem_of_nil in Hp.
Qed.

Lemma trim_Naive_returns_witness :
  exists r,
    trim_Naive 4 (fun _ => 0%nat) (mk_trimming onto_two_paths 0 []) ["m"] 3 = Ok r.
Proof.
  assert (forall n, n ∈ ["m"] -> (rank_two_paths n < 4)%nat) as Hfuel.
  { intros n Hn. apply list_elem_of_singleton in Hn as ->. vm_compute. lia. }
  destruct (trim_Naive_returns rank_two_paths 4 (fun _ => 0%nat)
              (mk_trimming onto_two_paths 0 []) ["m"] 3
              rank_two_paths_decreases Hfuel) as [_ Hr].
  exact Hr.
Defined.

(** ** The term reduction pipeline: parents and children *)

Lemma filter_all {A : Type} (P : A -> Prop) `{!forall x, Decision (P x)} (l : list A) :
  (forall x, x ∈ l -> P x) -> filter P l = l.
Proof.
  induction l as [|x l IH]; intros Hall; [done|].
  rewrite filter_cons. destruct (decide (P x)) as [|Hx].
  - f_equal. apply IH. intros y Hy. apply Hall. apply elem_of_cons. by right.
  - exfalso. apply Hx, Hall. apply elem_of_cons. by left.
Qed.

Lemma filter_full_length {A : Type} (P : A -> Prop) `{!forall x, Decision (P x)}
  (l : list A) :
  ~ (length (filter P l) < length l)%nat -> filter P l = l.
Proof.
  induction l as [|x l IH]; intros Hlen; [done|].
  rewrite filter_cons in *. destruct (decide (P x)).
  - f_equal. apply IH. simpl in Hlen. lia.
  - exfalso. apply Hlen. pose proof (length_filter P l). simpl. lia.
Qed.

Lemma remove_children_fst onto terms hp record st :
  fst (remove_children_if_parents_present onto terms hp record st)
  = filter (fun term => (size (ancestors_among onto terms term) =? 0)%nat
                        || is_high_priority hp term = true) terms.
Proof.
  unfold remove_children_if_parents_present.
  match goal with |- context [if ?c then _ else _] => destruct c eqn:Hlt end; [done|].
  simpl. symmetry. apply filter_full_length. intros Hlen.
  apply Nat.ltb_lt in Hlen. congruence.
Qed.

Lemma remove_children_kept onto terms hp record st t :
  t ∈ fst (remove_children_if_parents_present onto terms hp record st)
  <-> t ∈ terms
      /\ (is_high_priority hp t = true
          \/ forall a, a ∈ ancestors onto t -> a ∉ terms).
Proof.
  rewrite remove_children_fst, list_elem_of_filter. unfold ancestors_among.
  split.
  - intros [Hkeep Ht]. split; [done|].
    apply orb_true_iff in Hkeep as [Hnone|Hhp]; [right|by left].
    apply Nat.eqb_eq, size_empty_inv in Hnone. intros a Ha Hin.
    set_solver.
  - intros [Ht Hkeep]. split; [|done].
    apply orb_true_iff. destruct Hkeep as [Hhp|Hnone]; [by right|left].
    apply Nat.eqb_eq, size_empty_iff. set_solver.
Qed.

(** X11: [remove_children_if_parents_present] keeps, in their order, the
    terms that are high priority or have no ancestor among the terms, and
    drops the others; the terms it drops are added to
    [terms_already_covered]; running it again on its result drops nothing
    more. *)
Theorem remove_children_keeps_top_terms onto terms hp record st :
  let res := fst (remove_children_if_parents_present onto terms hp record st) in
  let st' := snd (remove_children_if_parents_present onto terms hp record st) in
  res `sublist_of` terms
  /\ (forall t, t ∈ res <->
        t ∈ terms /\ (is_high_priority hp t = true
                      \/ forall a, a ∈ ancestors onto t -> a ∉ terms))
  /\ terms_already_covered st'
     = terms_already_covered st ∪ (list_to_set terms ∖ list_to_set res)
  /\ fst (remove_children_if_parents_present onto res hp record st') = res.
Proof.
  cbv zeta. split; [|split; [|split]].
  - rewrite remove_children_fst. apply sublist_filter.
  - intros t. apply remove_children_kept.
  - unfold remove_children_if_parents_present.
    match goal with |- context [if ?c then _ else _] => destruct c end; simpl; [done|].
    set_solver.
  - rewrite (remove_children_fst onto
               (fst (remove_children_if_parents_present onto terms hp record st))).
    apply filter_all. intros t Ht.
    pose proof Ht as Ht'. apply remove_children_kept in Ht' as [_ Hkeep].
    apply orb_true_iff. destruct Hkeep as [Hhp|Hnone]; [by right|left].
    apply Nat.eqb_eq, size_empty_iff. unfold ancestors_among.
    intros a. split; [|set_solver]. intros Ha.
    apply elem_of_intersection in Ha as [Ha Hin].
    rewrite elem_of_list_to_set in Ha, Hin.
    apply remove_children_kept in Hin as [Hin _]. by destruct (Hnone a Ha).
Qed.

Lemma top_ancestor_exists onto terms :
  strict_ancestors onto ->
  forall n t, t ∈ terms -> (size (ancestors_among onto terms t) <= n)%nat ->
    exists a, a ∈ terms /\ (a = t \/ a ∈ ancestors onto t)
              /\ forall x, x ∈ ancestors onto a -> x ∉ terms.
Proof.
  intros [Hirr Htrans]. induction n as [|n IH]; intros t Ht Hsize.
  - exists t. split; [done|]. split; [by left|].
    intros x Hx Hin. assert (size (ancestors_among onto terms t) = 0)%nat as Hz by lia.
    apply size_empty_inv in Hz. unfold ancestors_among in Hz. set_solver.
  - destruct (decide (ancestors_among onto terms t = ∅)) as [Hempty|Hne].
    + apply IH; [done|]. rewrite Hempty, size_empty. lia.
    + apply set_choose_L in Hne as [x Hx].
      pose proof Hx as Hx'. unfold ancestors_among in Hx'.
      apply elem_of_intersection in Hx' as [Hxa Hxt].
      rewrite elem_of_list_to_set in Hxa, Hxt.
      destruct (IH x Hxt) as (a & Ha & Hrel & Htop).
      * assert (ancestors_among onto terms x ⊂ ancestors_among onto terms t) as Hsub.
        { split.
          - intros y Hy. unfold ancestors_among in *.
            apply elem_of_intersection in Hy as [Hya Hyt].
            rewrite elem_of_list_to_set in Hya, Hyt.
            apply elem_of_intersection. rewrite !elem_of_list_to_set.
            split; [|done]. by apply (Htrans y x t).
          - intros Hback. specialize (Hback x Hx). unfold ancestors_among in Hback.
            apply elem_of_intersection in Hback as [Hback _].
            rewrite elem_of_list_to_set in Hback. by apply (Hirr x). }
        apply subset_size in Hsub. lia.
      * exists a. split; [done|]. split; [|done]. right.
        destruct Hrel as [->|Hrel]; [done|]. by apply (Htrans a x t).
Qed.

(** X12: when the ancestors of the ontology form a strict order, every term
    given to [remove_children_if_parents_present] stays represented: the
    result holds the term or one of its ancestors. *)
Theorem remove_children_keeps_an_ancestor onto terms hp record st t :
  strict_ancestors onto -> t ∈ terms ->
  exists a, a ∈ fst (remove_children_if_parents_present onto terms hp record st)
            /\ (a = t \/ a ∈ ancestors onto t).
Proof.
  intros Hstrict Ht.
  destruct (top_ancestor_exists onto terms Hstrict
              (size (ancestors_among onto terms t)) t Ht) as (a & Ha & Hrel & Htop);
    [done|].
  exists a. split; [|done]. apply remove_children_kept. split; [done|]. by right.
Qed.

Lemma onto_diamond_strict : strict_ancestors onto_diamond.
Proof.
  assert (forall a b, a ∈ ancestors onto_diamond b ->
            (b = "P" /\ a = "R") \/ (b = "n" /\ a = "R")
            \/ (b = "m" /\ (a = "n" \/ a = "P" \/ a = "R"))
            \/ (b = "m2" /\ (a = "P" \/ a = "R"))) as Hcases.
  { intros a b. unfold onto_diamond. cbn [ancestors].
    destruct (String.eqb b "P") eqn:HP.
    { apply String.eqb_eq in HP as ->. intros Ha.
      apply list_elem_of_singleton in Ha as ->. by left. }
    destruct (String.eqb b "n") eqn:Hn.
    { apply String.eqb_eq in Hn as ->. intros Ha.
      apply list_elem_of_singleton in Ha as ->. right. by left. }
    destruct (String.eqb b "m") eqn:Hm.
    { apply String.eqb_eq in Hm as ->. intros Ha. right. right. left.
      split; [done|]. set_solver. }
    destruct (String.eqb b "m2") eqn:Hm2.
    { apply String.eqb_eq in Hm2 as ->. intros Ha. right. right. right.
      split; [done|]. set_solver. }
    intros Ha. by apply elem_of_nil in Ha. }
  split.
  - intros n Hn. apply Hcases in Hn.
    repeat (first [destruct_or!|destruct_and!]); simplify_eq.
  - intros a b c Hab Hbc. apply Hcases in Hab. apply Hcases in Hbc.
    repeat (first [destruct_or!|destruct_and!]); simplify_eq; cbn; set_solver.
Qed.

Lemma remove_children_keeps_an_ancestor_witness :
  exists a,
    a ∈ fst (remove_children_if_parents_present onto_diamond ["m"; "P"; "m2"] [] false
               (mk_reduce_state ∅ ∅))
    /\ (a = "m" \/ a ∈ ancestors onto_diamond "m").
Proof.
  assert ("m" ∈ ["m"; "P"; "m2"]) as Ht by (apply elem_of_cons; by left).
  exact (remove_children_keeps_an_ancestor onto_diamond ["m"; "P"; "m2"] [] false
           (mk_reduce_state ∅ ∅) "m" onto_diamond_strict Ht).
Defined.

Lemma set_iter_from_length {A : Type} `{Countable A} (pick : gset A -> nat) (fuel : nat)
  (s : gset A) :
  (size s <= fuel)%nat -> length (set_iter_from fuel pick s) = size s.
Proof.
  revert s. induction fuel as [|fuel IH]; intros s Hsize; simpl; [lia|].
  destruct (set_pop pick s) as [[x s']|] eqn:Hpop.
  - apply set_pop_Some in Hpop as [Hx ->]. simpl.
    assert (size s = S (size (s ∖ {[x]}))) as Hs.
    { rewrite size_difference by set_solver. rewrite size_singleton.
      assert (size s <> 0)%nat; [|lia].
      intros Hz. apply size_empty_inv in Hz. set_solver. }
    rewrite IH; lia.
  - apply set_pop_None in Hpop as ->. by rewrite size_empty.
Qed.

Lemma set_iter_length {A : Type} `{Countable A} (pick : gset A -> nat) (s : gset A) :
  length (set_iter pick s) = size s.
Proof. unfold set_iter. by apply set_iter_from_length. Qed.

Lemma remove_parents_kept onto pick terms hp st t :
  t ∈ fst (remove_parents_if_child_present onto pick terms hp st)
  <-> t ∈ terms /\ ~ parent_of_a_term onto terms hp t.
Proof.
  unfold remove_parents_if_child_present.
  set (removed := list_to_set
         (filter (fun ancestor =>
                    bool_decide (hp = [])
                    || negb (bool_decide (ancestor ∈ hp)) = true)
            (concat (map (ancestors onto) terms))) : gset string).
  assert (forall x, x ∈ removed <-> parent_of_a_term onto terms hp x) as Hremoved.
  { intros x. unfold removed, parent_of_a_term, is_high_priority.
    rewrite elem_of_list_to_set, list_elem_of_filter, elem_of_concat. split.
    - intros (Hhp & l & Hx & Hl). apply elem_of_map in Hl as (n & -> & Hn).
      exists n. split; [done|]. split; [done|].
      destruct (bool_decide (hp = [])); [done|]. simpl in *.
      by apply negb_true_iff in Hhp as ->.
    - intros (n & Hn & Hx & Hhp). split.
      + destruct (bool_decide (hp = [])); [done|]. simpl in *.
        by apply negb_true_iff.
      + exists (ancestors onto n). split; [done|]. apply elem_of_map. eauto. }
  match goal with |- context [if ?c then _ else _] => destruct c eqn:Hlt end; simpl.
  - rewrite set_iter_elem, elem_of_difference, elem_of_list_to_set.
    by rewrite Hremoved.
  - apply Nat.ltb_ge in Hlt. rewrite set_iter_length in Hlt.
    split; [|by intros [Ht _]]. intros Ht. split; [done|].
    rewrite <- Hremoved. intros Hrem.
    assert (size (list_to_set terms ∖ removed) < size (list_to_set terms : gset string))%nat.
    { apply subset_size. split; [set_solver|].
      intros Hback. assert (t ∈ (list_to_set terms : gset string)) as Hin
        by (by apply elem_of_list_to_set).
      apply Hback in Hin. set_solver. }
    pose proof (size_list_to_set_le terms). lia.
Qed.

(** X13: [remove_parents_if_child_present] returns exactly the terms that
    are not an ancestor of a term of the list, high-priority terms apart;
    the terms it drops are added to [terms_already_covered]. *)
Theorem remove_parents_drops_ancestors onto pick terms hp st :
  let res := fst (remove_parents_if_child_present onto pick terms hp st) in
  let st' := snd (remove_parents_if_child_present onto pick terms hp st) in
  (forall t, t ∈ res <->
     t ∈ terms /\ ~ exists n, n ∈ terms /\ t ∈ ancestors onto n
                              /\ is_high_priority hp t = false)
  /\ terms_already_covered st'
     = terms_already_covered st ∪ (list_to_set terms ∖ list_to_set res)
  /\ ancestors_covering_multiple_children st'
     = ancestors_covering_multiple_children st.
Proof.
  cbv zeta. split; [|split].
  - intros t. apply remove_parents_kept.
  - unfold remove_parents_if_child_present.
    match goal with |- context [if ?c then _ else _] => destruct c end; simpl; [done|].
    set_solver.
  - unfold remove_parents_if_child_present.
    match goal with |- context [if ?c then _ else _] => destruct c end; done.
Qed.

Lemma bottom_descendant_exists onto terms hp :
  strict_ancestors onto ->
  forall k t, t ∈ terms -> (size (descendants_among onto terms t) <= k)%nat ->
    exists d, d ∈ terms /\ (d = t \/ t ∈ ancestors onto d)
              /\ ~ parent_of_a_term onto terms hp d.
Proof.
  intros [Hirr Htrans]. induction k as [|k IH]; intros t Ht Hsize.
  - exists t. split; [done|]. split; [by left|].
    intros (n & Hn & Hanc & _).
    assert (size (descendants_among onto terms t) = 0)%nat as Hz by lia.
    apply size_empty_inv in Hz. unfold descendants_among in Hz. set_solver.
  - destruct (decide (descendants_among onto terms t = ∅)) as [Hempty|Hne].
    + apply IH; [done|]. rewrite Hempty, size_empty. lia.
    + apply set_choose_L in Hne as [n Hn].
      pose proof Hn as Hn'. unfold descendants_among in Hn'.
      apply elem_of_filter in Hn' as [Hanc Hnt]. apply elem_of_list_to_set in Hnt.
      destruct (IH n Hnt) as (d & Hd & Hrel & Hbottom).
      * assert (descendants_among onto terms n ⊂ descendants_among onto terms t) as Hsub.
        { split.
          - intros m Hm. unfold descendants_among in *.
            apply elem_of_filter in Hm as [Hm Hmt]. apply elem_of_filter.
            split; [|done]. by apply (Htrans t n m).
          - intros Hback. specialize (Hback n Hn). unfold descendants_among in Hback.
            apply elem_of_filter in Hback as [Hback _]. by apply (Hirr n). }
        apply subset_size in Hsub. lia.
      * exists d. split; [done|]. split; [|done]. right.
        destruct Hrel as [->|Hrel]; [done|]. by apply (Htrans t n d).
Qed.

(** X14: when the ancestors of the ontology form a strict order, every term
    given to [remove_parents_if_child_present] stays represented: the result
    holds the term or one of its descendants. *)
Theorem remove_parents_keeps_a_descendant onto pick terms hp st t :
  strict_ancestors onto -> t ∈ terms ->
  exists d, d ∈ fst (remove_parents_if_child_present onto pick terms hp st)
            /\ (d = t \/ t ∈ ancestors onto d).
Proof.
  intros Hstrict Ht.
  destruct (bottom_descendant_exists onto terms hp Hstrict
              (size (descendants_among onto terms t)) t Ht) as (d & Hd & Hrel & Hbottom);
    [done|].
  exists d. split; [|done]. by apply remove_parents_kept.
Qed.

Lemma remove_parents_keeps_a_descendant_witness :
  exists d,
    d ∈ fst (remove_parents_if_child_present onto_diamond (fun _ => 0%nat)
               ["m"; "P"; "m2"] [] (mk_reduce_state ∅ ∅))
    /\ (d = "P" \/ "P" ∈ ancestors onto_diamond d).
Proof.
  assert ("P" ∈ ["m"; "P"; "m2"]) as Ht
    by (apply elem_of_cons; right; apply elem_of_cons; by left).
  exact (remove_parents_keeps_a_descendant onto_diamond (fun _ => 0%nat)
           ["m"; "P"; "m2"] [] (mk_reduce_state ∅ ∅) "P" onto_diamond_strict Ht).
Defined.

(** ** The root check *)

Lemma namespace_value_has o node_ids v :
  v ∈ all_namespace_values o node_ids ->
  exists n, n ∈ node_ids /\ has_namespace o n v.
Proof.
  unfold all_namespace_values. intros Hv.
  apply elem_of_concat in Hv as (l & Hv & Hl).
  apply elem_of_map in Hl as (n & -> & Hn). exists n. split; [done|].
  unfold has_namespace.
  destruct (basicPropertyValues (node o n)) as [bpvs|]; [|by apply elem_of_nil in Hv].
  exists bpvs. split; [done|]. unfold namespace_values in Hv.
  apply elem_of_map in Hv as ([pred val] & -> & Hin).
  apply list_elem_of_filter in Hin as [Hpred Hin]. simpl in *.
  by apply String.eqb_eq in Hpred as ->.
Qed.

Lemma scan_roots_same vals v cr :
  v <> "" -> (forall x, x ∈ vals -> x = v) -> cr = None \/ cr = Some v ->
  scan_roots vals cr = RootIs (match vals with [] => cr | _ => Some v end).
Proof.
  intros Hv. revert cr. induction vals as [|x vals IH]; intros cr Hall Hcr; [done|].
  simpl. assert (x = v) as -> by (apply Hall; apply elem_of_cons; by left).
  assert (truthy cr && negb (bool_decide (cr = Some v)) = false) as ->.
  { destruct Hcr as [->| ->]; [done|]. rewrite bool_decide_eq_true_2 by done.
    apply andb_false_r. }
  rewrite IH; [by destruct vals| |by right].
  intros y Hy. apply Hall. apply elem_of_cons. by right.
Qed.

(** X15: when no namespace value of the input terms is the empty string,
    the candidates are computed exactly when some input term carries a
    namespace and all the namespaces carried by input terms are the same;
    in every other case (no input term, no namespace at all, two
    namespaces) [ValueError] is raised. *)
Theorem candidates_iff_one_namespace o blacklist node_ids min_d :
  (forall n, n ∈ node_ids -> ~ has_namespace o n "") ->
  ((exists cands, get_all_trimming_candidates o blacklist node_ids min_d = Ok cands)
   <-> exists v, (exists n, n ∈ node_ids /\ has_namespace o n v)
                 /\ forall n v', n ∈ node_ids -> has_namespace o n v' -> v' = v)
  /\ ((forall cands, get_all_trimming_candidates o blacklist node_ids min_d <> Ok cands)
      <-> get_all_trimming_candidates o blacklist node_ids min_d = Raise ValueError).
Proof.
  intros Hnonempty. split; [split|split; [|by intros ->]].
  - intros [cands Hc]. apply get_all_trimming_candidates_inv in Hc as (r & Hroot & Hr & _).
    unfold nodes_have_same_root in Hroot. rewrite same_root_nodes_scan in Hroot.
    destruct (all_namespace_values o node_ids) as [|v vals] eqn:Hvals; [done|].
    exists v. split.
    + apply namespace_value_has. rewrite Hvals. apply elem_of_cons. by left.
    + intros n v' Hn Hv'. destruct (decide (v' = v)) as [|Hne]; [done|].
      exfalso.
      assert (scan_roots (all_namespace_values o node_ids) None = RootFalse) as Hfalse.
      { apply (scan_roots_two_values _ _ v' v); [|rewrite Hvals; apply elem_of_cons; by left
                                                 |done| |].
        - by eapply has_namespace_value.
        - intros ->. by apply (Hnonempty n).
        - intros ->.
          assert ("" ∈ all_namespace_values o node_ids) as Hin
            by (rewrite Hvals; apply elem_of_cons; by left).
          apply namespace_value_has in Hin as (n' & Hn' & Hhas).
          by apply (Hnonempty n'). }
      rewrite Hvals in Hfalse. congruence.
  - intros (v & (n & Hn & Hhas) & Hsame).
    assert (v <> "") as Hv by (intros ->; by apply (Hnonempty n)).
    assert (nodes_have_same_root o node_ids = RootIs (Some v)) as Hroot.
    { unfold nodes_have_same_root. rewrite same_root_nodes_scan.
      rewrite (scan_roots_same _ v None Hv); [| |by left].
      - pose proof (has_namespace_value o node_ids n v Hn Hhas) as Hin.
        destruct (all_namespace_values o node_ids); [by apply elem_of_nil in Hin|done].
      - intros x Hx. apply namespace_value_has in Hx as (n' & Hn' & Hhas').
        by apply (Hsame n'). }
    unfold get_all_trimming_candidates. rewrite Hroot.
    apply String.eqb_neq in Hv as ->. by eexists.
  - intros Hnot.
    destruct (get_all_trimming_candidates o blacklist node_ids min_d) as [cands|e] eqn:Hc;
      [by destruct (Hnot cands)|].
    by apply candidates_raise_ValueError in Hc as ->.
Qed.

Lemma candidates_iff_one_namespace_witness :
  (exists cands, get_all_trimming_candidates onto_diamond [] ["m"; "m2"] 1 = Ok cands)
  /\ get_all_trimming_candidates onto_two_roots [] ["a"; "b"] 0 = Raise ValueError.
Proof.
  split.
  - apply (candidates_iff_one_namespace onto_diamond [] ["m"; "m2"] 1).
    + intros n _ (bpvs & Hbpvs & Hin). injection Hbpvs as <-.
      apply list_elem_of_singleton in Hin. discriminate.
    + exists "bp". split.
      * exists "m". split; [apply elem_of_cons; by left|].
        exists [(hasOBONamespace, "bp")]. split; [reflexivity|].
        by apply list_elem_of_singleton.
      * intros n v' _ (bpvs & Hbpvs & Hin). injection Hbpvs as <-.
        apply list_elem_of_singleton in Hin. by injection Hin as ->.
  - apply (candidates_iff_one_namespace onto_two_roots [] ["a"; "b"] 0).
    + intros n _ (bpvs & Hbpvs & Hin). injection Hbpvs as <-.
      apply list_elem_of_singleton in Hin. injection Hin as Hin.
      destruct (String.eqb n "a"); discriminate.
    + intros cands Hc. vm_compute in Hc. discriminate.
Defined.

(** ** The trimmed terms are eligible *)

Lemma collect_ancestors_ok o blacklist min_d common_root node_ids k l :
  (k, l) ∈ collect_ancestors o blacklist min_d common_root node_ids ->
  candidate_ok o blacklist min_d common_root k = true.
Proof.
  revert k l. unfold collect_ancestors.
  apply (fold_left_invariant
           (fun d : list (string * list string) =>
              forall k l, (k, l) ∈ d ->
                          candidate_ok o blacklist min_d common_root k = true)).
  - intros acc n _ Hacc. unfold collect_for_node.
    apply (fold_left_invariant
             (fun d : list (string * list string) =>
                forall k l, (k, l) ∈ d ->
                            candidate_ok o blacklist min_d common_root k = true));
      [|done].
    intros acc' a _ Hacc' k l.
    destruct (candidate_ok o blacklist min_d common_root a) eqn:Hok; [|by apply Hacc'].
    intros Hin. apply dict_append_elem in Hin as [Hin|[-> _]]; [by eapply Hacc'|done].
  - intros k l Hin. by apply elem_of_nil in Hin.
Qed.

Lemma candidates_ok o blacklist node_ids min_d cands c :
  get_all_trimming_candidates o blacklist node_ids min_d = Ok cands -> c ∈ cands ->
  (min_d <= depth (node o (node_id c)))
  /\ not_blacklisted blacklist (node_id c) = true.
Proof.
  intros Hc Hin. apply get_all_trimming_candidates_inv in Hc as (r & _ & _ & ->).
  apply elem_of_map in Hin as ([k l] & -> & Hin).
  apply list_elem_of_filter in Hin as [_ Hin].
  apply collect_ancestors_ok in Hin. unfold candidate_ok in Hin. simpl.
  apply andb_true_iff in Hin as [Hin Hbl]. apply andb_true_iff in Hin as [Hd _].
  split; [by apply Z.leb_le|done].
Qed.

(** X16: the IC trimming returns no blacklisted term, and a term it returns
    that is not an input term lies at least [min_distance_from_root] from
    the root. *)
Theorem trim_IC_terms_eligible self node_ids cap flag sel p :
  trim_IC self node_ids cap = Ok (flag, sel) -> p ∈ sel ->
  not_blacklisted (nodeids_blacklist self) (fst p) = true
  /\ (fst p ∈ node_ids
      \/ min_distance_from_root self <= depth (node (ontology self) (fst p))).
Proof.
  intros Htrim Hp. apply trim_IC_inv in Htrim as (cands & Hc & Hsel & _).
  destruct (find_set_covering_from_subsets _ _ _ _ _ _ Hsel Hp) as (s & Hs & ->).
  rewrite positive_candidates in Hs. apply list_elem_of_filter in Hs as [Hpos Hs].
  destruct (candidates_ok _ _ _ _ _ _ Hc Hs) as [_ Hbl]. simpl. split; [done|].
  unfold get_candidate_ic_value in Hpos.
  destruct (bool_decide (node_id s ∈ node_ids)) eqn:Hin;
    [left; by apply bool_decide_eq_true in Hin|right].
  destruct (depth (node (ontology self) (node_id s)) <? min_distance_from_root self)
    eqn:Hd; [done|]. by apply Z.ltb_ge.
Qed.

Lemma trim_IC_terms_eligible_witness :
  exists flag sel p,
    trim_IC (mk_trimming_ic (mk_trimming onto_diamond 3 ["n"]) 0 ∅) ["m"; "m2"] 1
    = Ok (flag, sel)
    /\ p ∈ sel
    /\ not_blacklisted ["n"] (fst p) = true.
Proof.
  destruct (trim_IC (mk_trimming_ic (mk_trimming onto_diamond 3 ["n"]) 0 ∅)
              ["m"; "m2"] 1) as [[flag [|p sel]]|e] eqn:Hrun;
    try (vm_compute in Hrun; discriminate).
  exists flag, (p :: sel), p.
  assert (p ∈ p :: sel) as Hp by (apply elem_of_cons; by left).
  split; [reflexivity|]. split; [exact Hp|].
  exact (proj1 (trim_IC_terms_eligible _ _ _ _ _ _ Hrun Hp)).
Defined.

(** X17: the LCA trimming returns no blacklisted term and no term closer to
    the root than [min_distance_from_root]. *)
Theorem trim_LCA_terms_eligible pick self node_ids cap flag sel p :
  trim_LCA pick self node_ids cap = Ok (flag, sel) -> p ∈ sel ->
  not_blacklisted (nodeids_blacklist self) (fst p) = true
  /\ min_distance_from_root self <= depth (node (ontology self) (fst p)).
Proof.
  intros Htrim Hp.
  apply trim_LCA_inv in Htrim as (cands & selected & items & Hc & _ & Hitems & Hcases).
  apply lca_items_spec in Hitems as [_ Hitems].
  assert (forall it, it ∈ items -> exists c, c ∈ cands /\ node_id c = fst it) as Hfrom.
  { intros it Hit. destruct (Hitems it Hit) as [lab Hget].
    apply lca_candidates_dict_get in Hget as (c & Hin & Hid & _). eauto. }
  assert (exists c, c ∈ cands /\ node_id c = fst p) as (c & Hin & Hid).
  { destruct Hcases as [(_ & _ & ->)|(_ & Hsel & _)]; [by apply Hfrom|].
    destruct (find_set_covering_from_subsets _ _ _ _ _ _ Hsel Hp) as (s & Hs & ->).
    apply elem_of_map in Hs as (it & -> & Hit). simpl. by apply Hfrom. }
  destruct (candidates_ok _ _ _ _ _ _ Hc Hin) as [Hd Hbl]. rewrite Hid in *. done.
Qed.

Lemma trim_LCA_terms_eligible_witness :
  exists flag sel p,
    trim_LCA (fun _ => 0%nat) (mk_trimming onto_diamond 1 []) ["n"; "m"; "m2"] 3
    = Ok (flag, sel)
    /\ p ∈ sel
    /\ 1 <= depth (node onto_diamond (fst p)).
Proof.
  destruct (trim_LCA (fun _ => 0%nat) (mk_trimming onto_diamond 1 []) ["n"; "m"; "m2"] 3)
    as [[flag [|p sel]]|e] eqn:Hrun; try (vm_compute in Hrun; discriminate).
  exists flag, (p :: sel), p.
  assert (p ∈ p :: sel) as Hp by (apply elem_of_cons; by left).
  split; [reflexivity|]. split; [exact Hp|].
  exact (proj2 (trim_LCA_terms_eligible _ _ _ _ _ _ _ Hrun Hp)).
Defined.

(** ** [reduce_terms] below the cap *)

Lemma remove_parents_length onto pick terms hp st :
  (length (fst (remove_parents_if_child_present onto pick terms hp st))
   <= length terms)%nat.
Proof.
  unfold remove_parents_if_child_present.
  match goal with |- context [if ?c then _ else _] => destruct c eqn:Hlt end; simpl;
    [|done].
  apply Nat.ltb_lt in Hlt. lia.
Qed.

Lemma remove_parents_covered onto pick terms hp st :
  terms_already_covered (snd (remove_parents_if_child_present onto pick terms hp st))
  = terms_already_covered st
    ∪ (list_to_set terms
       ∖ list_to_set (fst (remove_parents_if_child_present onto pick terms hp st))).
Proof.
  unfold remove_parents_if_child_present.
  match goal with |- context [if ?c then _ else _] => destruct c end; simpl; [done|].
  set_solver.
Qed.

Lemma remove_children_covered onto terms hp record st :
  terms_already_covered (snd (remove_children_if_parents_present onto terms hp record st))
  = terms_already_covered st
    ∪ (list_to_set terms
       ∖ list_to_set (fst (remove_children_if_parents_present onto terms hp record st))).
Proof.
  unfold remove_children_if_parents_present.
  match goal with |- context [if ?c then _ else _] => destruct c end; simpl; [done|].
  set_solver.
Qed.

(** X18: when the cap [max_terms] is not positive, or the set of terms is
    not larger than the cap, [reduce_terms] trims nothing and never calls
    [get_best_nodes]: it returns, with both flags false, terms of the given
    set that are not excluded and, when overlap is removed, were not covered
    before; everything it returns or drops on the way is covered
    afterwards. *)
Theorem reduce_terms_below_cap onto max_terms add_mul del_overlap remove_parents
  remove_child_terms exclude_terms dist_root get_best_nodes pick terms st aspect hp :
  max_terms <= 0 \/ Z.of_nat (size terms) <= max_terms ->
  exists res st',
    reduce_terms onto max_terms add_mul del_overlap remove_parents remove_child_terms
      exclude_terms dist_root get_best_nodes pick terms st aspect hp
    = Ok (res, false, false, st')
    /\ (forall t, t ∈ res ->
          t ∈ terms /\ t ∉ exclude_terms
          /\ (del_overlap = true -> t ∉ terms_already_covered st)
          /\ t ∈ terms_already_covered st')
    /\ terms_already_covered st ⊆ terms_already_covered st'.
Proof.
  intros Hcap. unfold reduce_terms. cbv zeta.
  set (st0 := mk_reduce_state (terms_already_covered st) ∅).
  set (terms0 := if del_overlap then terms ∖ terms_already_covered st0 else terms).
  set (terms1 := if negb (bool_decide (exclude_terms = []))
                 then terms0 ∖ list_to_set exclude_terms else terms0).
  assert (forall t, t ∈ terms1 ->
            t ∈ terms /\ t ∉ exclude_terms
            /\ (del_overlap = true -> t ∉ terms_already_covered st)) as Hterms1.
  { intros t Ht. unfold terms1, terms0, st0 in Ht. simpl in Ht.
    destruct (bool_decide (exclude_terms = [])) eqn:Hex; simpl in Ht.
    - apply bool_decide_eq_true in Hex as ->.
      destruct del_overlap; (split; [set_solver|]); (split; [set_solver|]);
        [set_solver|done].
    - destruct del_overlap; (split; [set_solver|]); (split; [set_solver|]);
        [set_solver|done]. }
  assert (size terms1 <= size terms)%nat as Hsize.
  { apply subseteq_size. intros t Ht. by apply Hterms1. }
  set (parents_removed :=
         if remove_parents
         then remove_parents_if_child_present onto pick (set_iter pick terms1) hp st0
         else (set_iter pick terms1, st0)).
  assert ((forall t, t ∈ fst parents_removed -> t ∈ terms1)
          /\ (length (fst parents_removed) <= size terms1)%nat
          /\ terms_already_covered st ⊆ terms_already_covered (snd parents_removed))
    as (Hsub2 & Hlen2 & Hcov2).
  { unfold parents_removed. destruct remove_parents.
    - split; [|split].
      + intros t Ht. apply remove_parents_kept in Ht as [Ht _].
        by apply set_iter_elem in Ht.
      + rewrite <- (set_iter_length pick terms1). apply remove_parents_length.
      + rewrite remove_parents_covered. simpl. set_solver.
    - simpl. split; [|split]; [|by rewrite set_iter_length|done].
      intros t Ht. by apply set_iter_elem in Ht. }
  destruct parents_removed as [terms2 st2]. simpl in Hsub2, Hlen2, Hcov2.
  assert ((0 <? max_terms) && (max_terms <? Z.of_nat (length terms2)) = false) as ->.
  { apply andb_false_iff. destruct Hcap as [Hcap|Hcap].
    - left. apply Z.ltb_ge. lia.
    - right. apply Z.ltb_ge. lia. }
  cbn beta iota zeta delta [mbind py_mbind py_bind].
  set (st3 := mk_reduce_state (terms_already_covered st2 ∪ list_to_set terms2)
                (ancestors_covering_multiple_children st2)).
  set (children_removed :=
         if remove_child_terms
         then remove_children_if_parents_present onto terms2 hp add_mul st3
         else (terms2, st3)).
  assert ((forall t, t ∈ fst children_removed -> t ∈ terms2)
          /\ terms_already_covered st3 ⊆ terms_already_covered (snd children_removed))
    as (Hsub4 & Hcov4).
  { unfold children_removed. destruct remove_child_terms; [|done]. split.
    - intros t Ht. by apply remove_children_kept in Ht as [Ht _].
    - rewrite remove_children_covered. set_solver. }
  destruct children_removed as [terms4 st4]. simpl in Hsub4, Hcov4.
  exists terms4, st4. split; [done|]. split.
  - intros t Ht. specialize (Hsub4 t Ht).
    destruct (Hterms1 t (Hsub2 t Hsub4)) as (H1 & H2 & H3).
    split; [done|]. split; [done|]. split; [done|].
    apply Hcov4. unfold st3. simpl. set_solver.
  - unfold st3 in Hcov4. simpl in Hcov4. set_solver.
Qed.

Lemma reduce_terms_below_cap_witness :
  exists res st',
    reduce_terms onto_diamond 3 false true true true ["m2"] []
      (fun _ _ _ _ => Raise ValueError) (fun _ => 0%nat)
      {["m"; "P"; "m2"]} (mk_reduce_state ∅ ∅) "P" []
    = Ok (res, false, false, st')
    /\ "m2" ∉ res.
Proof.
  assert (3 <= 0 \/ Z.of_nat (size ({["m"; "P"; "m2"]} : gset string)) <= 3) as Hcap
    by (right; vm_compute; discriminate).
  destruct (reduce_terms_below_cap onto_diamond 3 false true true true ["m2"] []
              (fun _ _ _ _ => Raise ValueError) (fun _ => 0%nat)
              {["m"; "P"; "m2"]} (mk_reduce_state ∅ ∅) "P" [] Hcap)
    as (res & st' & Hrun & Hres & _).
  exists res, st'. split; [exact Hrun|].
  intros Hin. destruct (Hres "m2" Hin) as (_ & Hex & _).
  apply Hex. by apply list_elem_of_singleton.
Defined.
